(** * pyro.infer.util: a shallow embedding of [TreeSum], [MultiViewTensor]
    and the reduction helpers, with the properties of the specification. *)

From stdpp Require Import gmap list fin_maps.
From Equations Require Import Equations.
From Equations.Prop Require Import Logic.

(** ** Outcomes of a Python call *)

(** The exceptions that the module's functions can raise. *)
Inductive exn :=
| AssertionError
| AttributeError
| KeyError
| IndexError
| TypeError
| RuntimeError.

(** A call either returns a value or raises. *)
Inductive outcome (A : Type) :=
| Ok (a : A)
| Raise (e : exn).
Arguments Ok {A} a.
Arguments Raise {A} e.

#[export] Instance outcome_ret : MRet outcome := @Ok.
#[export] Instance outcome_bind : MBind outcome :=
  λ A B f r, match r with Ok a => f a | Raise e => Raise e end.
#[export] Instance outcome_fmap : FMap outcome :=
  λ A B f r, match r with Ok a => Ok (f a) | Raise e => Raise e end.

(** ** Scalars *)

(** The numbers of the program are floating-point; the model takes any
    type of scalars with a zero, an addition and an exponential. *)
Class Scalar (R : Type) := {
  rzero : R;
  radd : R → R → R;
  rexp : R → R
}.

(** Exact arithmetic: addition is a commutative monoid. *)
Class ExactScalar (R : Type) `{Scalar R} : Prop := {
  radd_comm : ∀ x y : R, radd x y = radd y x;
  radd_assoc : ∀ x y z : R, radd x (radd y z) = radd (radd x y) z;
  radd_0_l : ∀ x : R, radd rzero x = x
}.

#[export] Instance Z_scalar : Scalar Z :=
  {| rzero := 0%Z; radd := Z.add; rexp := λ x, (2 ^ x)%Z |}.

#[export] Instance Z_exact : ExactScalar Z.
Proof. split; intros; simpl; lia. Qed.

(** ** Tensors *)

(** Modelled from the spec: the tensor type is external to the module.
    A tensor is its shape and its elements in row-major order. *)
Record tensor (R : Type) := Tensor {
  tshape : list nat;
  tdata : list R
}.
Arguments Tensor {R} tshape tdata.
Arguments tshape {R} t.
Arguments tdata {R} t.

Module Torch.
Section defs.
Context {R : Type} `{Scalar R}.

Definition numel (shape : list nat) : nat := foldr Nat.mul 1 shape.

Definition wf (t : tensor R) : Prop := length (tdata t) = numel (tshape t).

(** All index tuples of a shape, in row-major order. *)
Fixpoint indices (shape : list nat) : list (list nat) :=
  match shape with
  | [] => [[]]
  | n :: shape' => i ← seq 0 n; cons i <$> indices shape'
  end.

(** The position of an index tuple in the row-major data. *)
Fixpoint offset (shape idx : list nat) : nat :=
  match shape, idx with
  | _ :: shape', i :: idx' => i * numel shape' + offset shape' idx'
  | _, _ => 0
  end.

Definition item (t : tensor R) (idx : list nat) : R :=
  default rzero (tdata t !! offset (tshape t) idx).

Definition tabulate (shape : list nat) (f : list nat → R) : tensor R :=
  Tensor shape (f <$> indices shape).

(** [f 0 + (f 1 + ... (f (n-1) + 0))] *)
Definition big_sum (n : nat) (f : nat → R) : R :=
  foldr (λ i acc, radd (f i) acc) rzero (seq 0 n).

(** [x] added [n] times. *)
Definition nsmul (n : nat) (x : R) : R := Nat.iter n (radd x) rzero.

Definition total (l : list R) : R := foldr radd rzero l.

(** Modelled from the spec: [t.dim()], the rank. *)
Definition dim (t : tensor R) : nat := length (tshape t).

(** Python's index normalisation: [-k] counts from the end. *)
Definition axis (rank : nat) (a : Z) : outcome nat :=
  if decide (0 ≤ a < Z.of_nat rank)%Z then Ok (Z.to_nat a)
  else if decide (- Z.of_nat rank ≤ a < 0)%Z
       then Ok (Z.to_nat (Z.of_nat rank + a))
       else Raise IndexError.

(** [shape[i]] on a tuple. *)
Definition tuple_get (shape : list nat) (i : Z) : outcome nat :=
  j ← axis (length shape) i; Ok (nth j shape 0).

(** Modelled from the spec: [t.size(a)]. *)
Definition size (t : tensor R) (a : Z) : outcome nat :=
  tuple_get (tshape t) a.

(** Modelled from the spec: [t.sum(a, keepdim)], the sum-reduction over
    one axis, which is removed, or kept with size 1. *)
Definition sum_dim (t : tensor R) (a : Z) (keepdim : bool) : outcome (tensor R) :=
  j ← axis (dim t) a;
  let n := nth j (tshape t) 0 in
  Ok (if keepdim
      then tabulate (<[j := 1]> (tshape t))
             (λ idx, big_sum n (λ i, item t (<[j := i]> idx)))
      else tabulate (delete j (tshape t))
             (λ idx, big_sum n (λ i, item t (take j idx ++ i :: drop j idx)))).

(** Modelled from the spec: [t.sum()], a single scalar-like value. *)
Definition sum_all (t : tensor R) : tensor R :=
  Tensor [] [total (tdata t)].

(** Modelled from the spec: [t.exp()], elementwise. *)
Definition exp (t : tensor R) : tensor R :=
  Tensor (tshape t) (rexp <$> tdata t).

(** The index of the element of a tensor of shape [shape] that is seen
    at [idx] in a broadcast of it: leading axes are dropped and axes of
    size 1 are read at 0. *)
Definition source_index (shape idx : list nat) : list nat :=
  zip_with (λ s i, if decide (s = 1) then 0 else i) shape
    (drop (length idx - length shape) idx).

(** [shape] can be expanded to [target]. *)
Definition expandable (shape target : list nat) : bool :=
  bool_decide (length shape ≤ length target) &&
  bool_decide (Forall2 (λ s n, s = n ∨ s = 1) shape
                 (drop (length target - length shape) target)).

(** [target] is a larger shape than [shape]: it has at least as many
    axes, and each axis of [shape] is at most the axis of [target] at
    the same place from the end. *)
Definition larger (shape target : list nat) : Prop :=
  length shape ≤ length target ∧
  Forall2 le shape (drop (length target - length shape) target).

(** Modelled from the spec: [t.expand(target)], the broadcast of a
    tensor to a larger shape. *)
Definition expand (t : tensor R) (target : list nat) : outcome (tensor R) :=
  if expandable (tshape t) target
  then Ok (tabulate target (λ idx, item t (source_index (tshape t) idx)))
  else Raise RuntimeError.

(** The shape of the broadcast of two shapes, aligned at the end. *)
Fixpoint broadcast_rev (s1 s2 : list nat) : option (list nat) :=
  match s1, s2 with
  | [], _ => Some s2
  | _, [] => Some s1
  | a :: s1', b :: s2' =>
      if decide (a = b) then cons a <$> broadcast_rev s1' s2'
      else if decide (a = 1) then cons b <$> broadcast_rev s1' s2'
      else if decide (b = 1) then cons a <$> broadcast_rev s1' s2'
      else None
  end.

Definition broadcast_shape (s1 s2 : list nat) : option (list nat) :=
  reverse <$> broadcast_rev (reverse s1) (reverse s2).

(** Modelled from the spec: [a + b] on tensors, elementwise with
    broadcasting; shapes that cannot be broadcast raise. *)
Definition add (a b : tensor R) : outcome (tensor R) :=
  match broadcast_shape (tshape a) (tshape b) with
  | Some shape =>
      Ok (tabulate shape
            (λ idx, radd (item a (source_index (tshape a) idx))
                         (item b (source_index (tshape b) idx))))
  | None => Raise RuntimeError
  end.

(** Modelled from the spec: [sum_leftmost(value, dim)] of
    [pyro.distributions.util], which sums out the [dim] leftmost axes,
    and for a negative [dim] all but the [-dim] rightmost axes. *)
Definition sum_leftmost (value : tensor R) (dim : Z) : tensor R :=
  let n := Z.to_nat (if decide (dim < 0)%Z
                     then Z.of_nat (length (tshape value)) + dim else dim) in
  tabulate (drop n (tshape value))
    (λ idx, total ((λ lead, item value (lead ++ idx))
                     <$> indices (take n (tshape value)))).

(** Modelled from the spec: [x + t] and [t + x] for a number [x], which
    is added to every element. *)
Definition scalar_add (x : R) (t : tensor R) : tensor R :=
  Tensor (tshape t) (radd x <$> tdata t).

Definition add_scalar (t : tensor R) (x : R) : tensor R :=
  Tensor (tshape t) ((λ e, radd e x) <$> tdata t).

End defs.
End Torch.

(** ** The values the module's functions are called with *)

Inductive pyobj (R : Type) :=
| PyNone
| PyNum (x : R)
| PyVar (v : tensor R)
| PyDict (d : gmap (list nat) (tensor R)).
Arguments PyNone {R}.
Arguments PyNum {R} x.
Arguments PyVar {R} v.
Arguments PyDict {R} d.

Section util.
Context {R : Type} `{Scalar R}.

(** Python's [a + b]. *)
Definition py_add (a b : pyobj R) : outcome (pyobj R) :=
  match a, b with
  | PyNum x, PyNum y => Ok (PyNum (radd x y))
  | PyNum x, PyVar v => Ok (PyVar (Torch.scalar_add x v))
  | PyVar v, PyNum x => Ok (PyVar (Torch.add_scalar v x))
  | PyVar v, PyVar w => PyVar <$> Torch.add v w
  | _, _ => Raise TypeError
  end.

(** [torch_exp]: [math.exp] on a number, [x.exp()] otherwise. *)
Definition torch_exp (x : pyobj R) : outcome (pyobj R) :=
  match x with
  | PyNum n => Ok (PyNum (rexp n))
  | PyVar v => Ok (PyVar (Torch.exp v))
  | _ => Raise AttributeError
  end.

(** [torch_data_sum] *)
Definition torch_data_sum (x : pyobj R) : outcome (pyobj R) :=
  match x with
  | PyNum n => Ok (PyNum n)
  | PyVar v => Ok (PyVar (Torch.sum_all v))
  | _ => Raise AttributeError
  end.

(** [torch_sum] *)
Definition torch_sum (x : pyobj R) : outcome (pyobj R) :=
  match x with
  | PyNum n => Ok (PyNum n)
  | PyVar v => Ok (PyVar (Torch.sum_all v))
  | _ => Raise AttributeError
  end.

(** [torch_backward]: the autograd engine is represented by the list of
    the variables that [backward()] was called on. *)
Definition torch_backward (x : pyobj R) (calls : list (tensor R)) :
    list (tensor R) :=
  match x with
  | PyVar v => calls ++ [v]
  | _ => calls
  end.

(** The loop [while source.dim() > rank: source = source.sum(0)]. *)
Equations sum_excess (source : tensor R) (rank : nat) : outcome (tensor R)
  by wf (Torch.dim source) lt :=
sum_excess source rank with inspect (bool_decide (rank < Torch.dim source)) := {
  | exist _ true Hlt with inspect (Torch.sum_dim source 0 false) := {
    | exist _ (Ok source') Hsum => sum_excess source' rank
    | exist _ (Raise e) _ => Raise e
    }
  | exist _ false _ => Ok source
  }.
Next Obligation.
  apply bool_decide_eq_true_1 in Hlt.
  unfold Torch.sum_dim, Torch.axis in Hsum.
  destruct (decide _) as [|Hn]; [|lia]. simpl in Hsum. injection Hsum as <-.
  unfold Torch.dim in *. simpl. destruct (tshape source); simpl in *; lia.
Qed.

(** A [for] loop whose body may raise. *)
Fixpoint for_each {A} (ks : list nat) (body : A → nat → outcome A) (a : A) :
    outcome A :=
  match ks with
  | [] => Ok a
  | k :: ks => a' ← body a k; for_each ks body a'
  end.

(** [reduce_to_target] *)
Definition reduce_to_target (source target : tensor R) : outcome (tensor R) :=
  source ← sum_excess source (Torch.dim target);
  for_each (seq 1 (Torch.dim source))
    (λ source k,
       a ← Torch.size source (- Z.of_nat k);
       b ← Torch.size target (- Z.of_nat k);
       if decide (b < a) then Torch.sum_dim source (- Z.of_nat k) true
       else Ok source)
    source.

(** [reduce_to_shape] *)
Definition reduce_to_shape (source : tensor R) (shape : list nat) :
    outcome (tensor R) :=
  source ← sum_excess source (length shape);
  for_each (seq 1 (Torch.dim source))
    (λ source k,
       a ← Torch.size source (- Z.of_nat k);
       b ← Torch.tuple_get shape (- Z.of_nat k);
       if decide (b < a) then Torch.sum_dim source (- Z.of_nat k) true
       else Ok source)
    source.

End util.

Module MultiViewTensor.
Section defs.
Context {R : Type} `{Scalar R}.

(** A MultiViewTensor is a dictionary from shapes to tensors. *)
Local Abbreviation t := (gmap (list nat) (tensor R)).

(** [MultiViewTensor.__init__] *)
Definition init (value : pyobj R) : t :=
  match value with
  | PyVar v => {[ tshape v := v ]}
  | _ => ∅
  end.

(** The merge of one entry: [self[shape] = self[shape] + value] when the
    shape is present, [self[shape] = value] otherwise. *)
Definition add_item (shape : list nat) (value : tensor R) (self : t) :
    outcome unit * t :=
  match self !! shape with
  | Some old =>
      match Torch.add old value with
      | Ok v => (Ok (), <[shape := v]> self)
      | Raise e => (Raise e, self)
      end
  | None => (Ok (), <[shape := value]> self)
  end.

(** The loop [for shape, value in term.items()]. *)
Fixpoint add_items (items : list (list nat * tensor R)) (self : t) :
    outcome unit * t :=
  match items with
  | [] => (Ok (), self)
  | (shape, value) :: items =>
      match add_item shape value self with
      | (Ok _, self') => add_items items self'
      | (Raise e, self') => (Raise e, self')
      end
  end.

(** [MultiViewTensor.add]: a Variable is merged under its shape, of
    anything else the [items()] are merged; a number has none. *)
Definition add (term : pyobj R) (self : t) : outcome unit * t :=
  match term with
  | PyVar v => add_item (tshape v) v self
  | PyDict d => add_items (map_to_list d) self
  | _ => (Raise AttributeError, self)
  end.

(** The body of the loop of [sum_leftmost_all_but]. *)
Definition sum_leftmost_all_but_term (dim : Z) (term : tensor R) : tensor R :=
  if decide (dim = 0%Z) then Torch.sum_all term
  else if decide (Z.of_nat (Torch.dim term) < dim)%Z then term
  else Torch.sum_leftmost term (- dim).

Fixpoint sum_leftmost_all_but_loop (dim : Z)
    (items : list (list nat * tensor R)) (result : t) : outcome t :=
  match items with
  | [] => Ok result
  | (_, term) :: items =>
      match add (PyVar (sum_leftmost_all_but_term dim term)) result with
      | (Ok _, result') => sum_leftmost_all_but_loop dim items result'
      | (Raise e, _) => Raise e
      end
  end.

(** [MultiViewTensor.sum_leftmost_all_but] *)
Definition sum_leftmost_all_but (self : t) (dim : Z) : outcome t :=
  if decide (0 ≤ dim)%Z
  then sum_leftmost_all_but_loop dim (map_to_list self) (init PyNone)
  else Raise AssertionError.

(** Python's [sum] over a generator, starting from the number 0. *)
Fixpoint sum_of (f : tensor R → outcome (tensor R)) (xs : list (tensor R))
    (acc : pyobj R) : outcome (pyobj R) :=
  match xs with
  | [] => Ok acc
  | x :: xs => y ← f x; acc' ← py_add acc (PyVar y); sum_of f xs acc'
  end.

(** [MultiViewTensor.contract_as] *)
Definition contract_as (self : t) (target : tensor R) : outcome (pyobj R) :=
  if decide (size self = 0) then Ok (PyNum rzero)
  else sum_of (λ x, reduce_to_target x target) (map_to_list self).*2
         (PyNum rzero).

(** [MultiViewTensor.contract] *)
Definition contract (self : t) (shape : list nat) : outcome (pyobj R) :=
  if decide (size self = 0) then Ok (PyNum rzero)
  else sum_of (λ x, reduce_to_shape x shape) (map_to_list self).*2
         (PyNum rzero).

End defs.
End MultiViewTensor.

(** ** TreeSum *)

Module TreeSum.
Section defs.
(** Keys are tuples of labels; values are whatever the caller stores
    (numbers or tensors).  [vadd] is Python's [+] on stored values and
    [torch_exp] the module's exponential on them; both are total, that
    is, the values stored along one path can be added to each other. *)
Context {L : Type} `{Countable L} {V : Type}.
Variable vadd : V → V → V.
Variable torch_exp : V → V.

(** [self._terms], [self._upstream] (whose values may be [None]) and
    [self._frozen]. *)
Record t := mk {
  _terms : gmap (list L) V;
  _upstream : gmap (list L) (option V);
  _frozen : bool
}.

(** [TreeSum.__init__] *)
Definition init : t :=
  {| _terms := ∅; _upstream := ∅; _frozen := false |}.

(** [TreeSum.copy]: both dictionaries are copied, the flag is read. *)
Definition copy (self : t) : t :=
  {| _terms := _terms self; _upstream := _upstream self;
     _frozen := _frozen self |}.

(** [TreeSum.add]: the assertion is the first statement, so a failing
    call leaves [self] as it was. *)
Definition add (key : list L) (value : V) (self : t) : outcome unit * t :=
  if _frozen self then (Raise AssertionError, self)
  else
    match _terms self !! key with
    | Some old =>
        (Ok (), {| _terms := <[key := vadd old value]> (_terms self);
                   _upstream := _upstream self;
                   _frozen := _frozen self |})
    | None =>
        (Ok (), {| _terms := <[key := value]> (_terms self);
                   _upstream := _upstream self;
                   _frozen := _frozen self |})
    end.

(** [key[:-1]] *)
Definition parent (key : list L) : list L := removelast key.

Lemma parent_length (key : list L) :
  key ≠ [] → length (parent key) < length key.
Proof.
  destruct key as [|a l]; [done|]. intros _. unfold parent.
  replace (a :: l) with (removelast (a :: l) ++ [List.last (a :: l) a])
    at 2 by (symmetry; apply app_removelast_last; done).
  rewrite length_app. simpl. lia.
Qed.

(** [TreeSum.get_upstream]: a cache hit returns at once (and does not
    touch the flag); a miss combines the local term with the parent's
    upstream sum, stores the result and freezes. *)
Equations get_upstream (key : list L) (self : t) : option V * t
  by wf (length key) lt :=
get_upstream key self with _upstream self !! key := {
  | Some cached => (cached, self)
  | None with key := {
    | [] =>
        let result := _terms self !! [] in
        (result, {| _terms := _terms self;
                    _upstream := <[[] := result]> (_upstream self);
                    _frozen := true |})
    | a :: l =>
        let result := _terms self !! (a :: l) in
        let '(upstream, self1) := get_upstream (parent (a :: l)) self in
        let result :=
          match upstream with
          | Some u =>
              match result with
              | None => Some u
              | Some r => Some (vadd u r)
              end
          | None => result
          end in
        (result, {| _terms := _terms self1;
                    _upstream := <[a :: l := result]> (_upstream self1);
                    _frozen := true |})
    }
  }.
Next Obligation. exact (parent_length (a :: l) ltac:(done)). Qed.

(** [TreeSum._freeze]: [get_upstream] is called for every key of
    [self._terms]; the dictionary iterated over is not changed by the
    calls. *)
Definition _freeze (self : t) : t :=
  let self1 :=
    foldl (λ s key, (get_upstream key s).2) self
          (map_to_list (_terms self)).*1 in
  {| _terms := _terms self1; _upstream := _upstream self1;
     _frozen := true |}.

(** [TreeSum.items]: the returned view is [self._upstream] itself. *)
Definition items (self : t) : gmap (list L) (option V) * t :=
  let self1 := _freeze self in (_upstream self1, self1).

(** One entry of the dictionary comprehension of [TreeSum.exp]:
    [self._upstream[key]] raises on a missing key and [torch_exp] on
    [None], which has no [exp] method. *)
Definition exp_entry (self : t) (key : list L) : outcome V :=
  match _upstream self !! key with
  | None => Raise KeyError
  | Some None => Raise AttributeError
  | Some (Some x) => Ok (torch_exp x)
  end.

Fixpoint exp_entries (self : t) (keys : list (list L))
    (acc : gmap (list L) (option V)) : outcome (gmap (list L) (option V)) :=
  match keys with
  | [] => Ok acc
  | key :: keys =>
      match exp_entry self key with
      | Ok v => exp_entries self keys (<[key := Some v]> acc)
      | Raise e => Raise e
      end
  end.

(** [TreeSum.exp]: returns the new instance (or raises) and the
    receiver, which has been frozen. *)
Definition exp (self : t) : outcome t * t :=
  let self1 := _freeze self in
  (match exp_entries self1 (map_to_list (_terms self1)).*1 ∅ with
   | Ok upstream =>
       Ok {| _terms := ∅; _upstream := upstream; _frozen := true |}
   | Raise e => Raise e
   end, self1).

(** [TreeSum.prune] *)
Definition prune (key : list L) (self : t) : outcome unit * t :=
  if _frozen self then
    (Ok (), {| _terms := delete key (_terms self);
               _upstream := delete key (_upstream self);
               _frozen := _frozen self |})
  else (Raise AssertionError, self).

(** *** Calls on one instance *)

Inductive op :=
| Add (key : list L) (value : V)
| GetUpstream (key : list L)
| Items
| Exp
| Prune (key : list L)
| Copy.

(** The receiver after one call; a call that raises leaves it as the
    function left it. *)
Definition step (o : op) (self : t) : t :=
  match o with
  | Add key value => (add key value self).2
  | GetUpstream key => (get_upstream key self).2
  | Items => (items self).2
  | Exp => (exp self).2
  | Prune key => (prune key self).2
  | Copy => self
  end.

Definition run (ops : list op) (self : t) : t :=
  foldl (λ s o, step o s) self ops.

Definition freezing (o : op) : bool :=
  match o with
  | GetUpstream _ | Items | Exp => true
  | _ => false
  end.

Definition pruning (o : op) : bool :=
  match o with Prune _ => true | _ => false end.

(** [instance h s]: [s] is a TreeSum that a program can hold, and [h]
    are the calls that led to it: the calls made on it since
    [TreeSum()], and for an instance returned by [copy] or [exp] the
    calls made on its origin followed by that call. *)
Inductive instance : list op → t → Prop :=
| instance_new : instance [] init
| instance_call h s o : instance h s → instance (h ++ [o]) (step o s)
| instance_copy h s : instance h s → instance (h ++ [Copy]) (copy s)
| instance_exp h s r :
    instance h s → (exp s).1 = Ok r → instance (h ++ [Exp]) r.

Definition reachable (s : t) : Prop := ∃ h, instance h s.

(** *** The upstream sum, as the specification words it *)

(** [None] is the additive identity. *)
Definition opt_add (a b : option V) : option V :=
  match a, b with
  | None, _ => b
  | Some x, None => Some x
  | Some x, Some y => Some (vadd x y)
  end.

(** All prefixes of a key, the root first and the key itself last. *)
Fixpoint prefixes (key : list L) : list (list L) :=
  match key with
  | [] => [[]]
  | a :: l => [] :: map (cons a) (prefixes l)
  end.

(** The sum of the local terms at the key and at its proper prefixes. *)
Definition upstream_sum (terms : gmap (list L) V) (key : list L) : option V :=
  foldl (λ acc p, opt_add acc (terms !! p)) None (prefixes key).

(** [add] called for each pair of a list in turn. *)
Definition add_all (l : list (list L * V)) (self : t) : t :=
  foldl (λ s kv, (add kv.1 kv.2 s).2) self l.

End defs.
Section facts.
Context {L : Type} `{Countable L} {V : Type}.
Variable vadd : V → V → V.
Variable torch_exp : V → V.

Local Abbreviation tree := (t (L:=L) (V:=V)).
Local Notation "'up' s key" := (get_upstream vadd key s).1
  (at level 10, s at level 9, key at level 9, only parsing).

(** **** The three cases of [get_upstream] *)

Lemma get_upstream_hit (key : list L) (s : tree) c :
  _upstream s !! key = Some c → get_upstream vadd key s = (c, s).
Proof.
  intros Hc. funelim (get_upstream vadd key s); congruence.
Qed.

Lemma get_upstream_root (s : tree) :
  _upstream s !! [] = None →
  get_upstream vadd [] s =
    (_terms s !! [],
     {| _terms := _terms s;
        _upstream := <[[] := _terms s !! []]> (_upstream s);
        _frozen := true |}).
Proof.
  intros Hc. funelim (get_upstream vadd [] s); congruence.
Qed.

Lemma parent_snoc (k : list L) x : parent (k ++ [x]) = k.
Proof. apply removelast_last. Qed.

Lemma get_upstream_miss (key : list L) (s : tree) :
  _upstream s !! key = None → key ≠ [] →
  get_upstream vadd key s =
    let r := opt_add vadd (up s (parent key)) (_terms s !! key) in
    let s1 := (get_upstream vadd (parent key) s).2 in
    (r, {| _terms := _terms s1;
           _upstream := <[key := r]> (_upstream s1);
           _frozen := true |}).
Proof.
  intros Hc Hne. funelim (get_upstream vadd key s); try congruence.
  destruct (get_upstream vadd (parent (a :: l)) self) as [u s1]. simpl.
  by destruct u, (_terms self !! (a :: l)).
Qed.

Lemma get_upstream_snoc (k : list L) x (s : tree) :
  _upstream s !! (k ++ [x]) = None →
  get_upstream vadd (k ++ [x]) s =
    let r := opt_add vadd (up s k) (_terms s !! (k ++ [x])) in
    let s1 := (get_upstream vadd k s).2 in
    (r, {| _terms := _terms s1;
           _upstream := <[k ++ [x] := r]> (_upstream s1);
           _frozen := true |}).
Proof.
  intros Hc. rewrite get_upstream_miss by (done || by destruct k).
  by rewrite parent_snoc.
Qed.

(** **** The specification's sum *)

Lemma prefixes_snoc (k : list L) x :
  prefixes (k ++ [x]) = prefixes k ++ [k ++ [x]].
Proof.
  induction k as [|a k IH]; [done|]. simpl. rewrite IH, map_app. done.
Qed.

Lemma elem_of_prefixes (p k : list L) : p ∈ prefixes k ↔ p `prefix_of` k.
Proof.
  revert p. induction k as [|a k IH]; intros p; simpl.
  - rewrite list_elem_of_singleton. split; [intros ->; done|].
    apply prefix_nil_inv.
  - rewrite elem_of_cons, list_elem_of_fmap. split.
    + intros [->|(q & -> & Hq)]; [apply prefix_nil|].
      apply prefix_cons, IH, Hq.
    + destruct p as [|b p]; [by left|]. intros Hp. right.
      assert (b = a) as -> by (by apply prefix_cons_inv_1 in Hp).
      exists p. split; [done|]. apply IH.
      by apply prefix_cons_inv_2 in Hp.
Qed.

Lemma upstream_sum_root (terms : gmap (list L) V) :
  upstream_sum vadd terms [] = terms !! [].
Proof. done. Qed.

Lemma upstream_sum_snoc (terms : gmap (list L) V) k x :
  upstream_sum vadd terms (k ++ [x]) =
    opt_add vadd (upstream_sum vadd terms k) (terms !! (k ++ [x])).
Proof. unfold upstream_sum. by rewrite prefixes_snoc, foldl_snoc. Qed.

Lemma opt_add_None_r (a : option V) : opt_add vadd a None = a.
Proof. by destruct a. Qed.

Lemma opt_add_eq_None (a b : option V) :
  opt_add vadd a b = None → a = None ∧ b = None.
Proof. by destruct a, b. Qed.

Lemma upstream_sum_absent (terms : gmap (list L) V) k :
  (∀ p, p `prefix_of` k → terms !! p = None) →
  upstream_sum vadd terms k = None.
Proof.
  induction k as [|x k IH] using rev_ind; intros Hk.
  - rewrite upstream_sum_root. by apply Hk.
  - rewrite upstream_sum_snoc, IH, (Hk (k ++ [x])); [done..|].
    intros p Hp. apply Hk. by apply prefix_app_r.
Qed.

(** **** What a call of [get_upstream] does to the receiver *)

Ltac get_upstream_cases key s :=
  destruct (_upstream s !! key) as [?c|] eqn:?Hc;
  [ rewrite (get_upstream_hit key s _ ltac:(eassumption))
  | first [ rewrite (get_upstream_root s) by assumption
          | rewrite (get_upstream_snoc _ _ s) by assumption ] ];
  simpl.

Lemma get_upstream_terms (key : list L) (s : tree) :
  _terms (get_upstream vadd key s).2 = _terms s.
Proof.
  induction key as [|x k IH] using rev_ind;
    [get_upstream_cases (@nil L) s | get_upstream_cases (k ++ [x]) s]; done.
Qed.

Lemma get_upstream_mono (key : list L) (s : tree) :
  _upstream s ⊆ _upstream (get_upstream vadd key s).2.
Proof.
  induction key as [|x k IH] using rev_ind;
    [get_upstream_cases (@nil L) s | get_upstream_cases (k ++ [x]) s];
    try done; by apply insert_subseteq_r.
Qed.

Lemma get_upstream_cached (key : list L) (s : tree) :
  _upstream (get_upstream vadd key s).2 !! key = Some (up s key).
Proof.
  destruct key as [|x k _] using rev_ind;
    [get_upstream_cases (@nil L) s | get_upstream_cases (k ++ [x]) s];
    try done; by rewrite lookup_insert_eq.
Qed.

(** Every entry of the cache after the call is the value that
    [get_upstream] returns for its key before the call. *)
Lemma get_upstream_entries (key : list L) (s : tree) p c :
  _upstream (get_upstream vadd key s).2 !! p = Some c → up s p = c.
Proof.
  revert p c. induction key as [|x k IH] using rev_ind; intros p c;
    [get_upstream_cases (@nil L) s | get_upstream_cases (k ++ [x]) s].
  - intros Hp. by rewrite (get_upstream_hit p s c).
  - rewrite lookup_insert. case_decide as Hd.
    + intros [= <-]. subst p. by rewrite get_upstream_root.
    + intros Hp. by rewrite (get_upstream_hit p s c).
  - intros Hp. by rewrite (get_upstream_hit p s c).
  - rewrite lookup_insert. case_decide as Hd.
    + intros [= <-]. subst p. by rewrite get_upstream_snoc.
    + apply IH.
Qed.

Lemma get_upstream_frozen (key : list L) (s : tree) :
  _frozen (get_upstream vadd key s).2 = true ∨
  (is_Some (_upstream s !! key) ∧ (get_upstream vadd key s).2 = s).
Proof.
  destruct key as [|x k _] using rev_ind;
    [get_upstream_cases (@nil L) s | get_upstream_cases (k ++ [x]) s];
    eauto.
Qed.

(** The call adds entries only for the key and its prefixes. *)
Lemma get_upstream_dom (key : list L) (s : tree) p :
  is_Some (_upstream (get_upstream vadd key s).2 !! p) →
  is_Some (_upstream s !! p) ∨ p `prefix_of` key.
Proof.
  revert p. induction key as [|x k IH] using rev_ind; intros p;
    [get_upstream_cases (@nil L) s | get_upstream_cases (k ++ [x]) s];
    eauto.
  - rewrite lookup_insert. case_decide; subst; eauto.
  - rewrite lookup_insert. case_decide; subst; eauto.
    intros [?|?]%IH; eauto using prefix_app_r.
Qed.

(** **** The returned value does not depend on how much is cached *)

(** [agrees s s']: [s'] is [s] with more of its upstream sums cached. *)
Definition agrees (s s' : tree) : Prop :=
  _terms s' = _terms s ∧
  _upstream s ⊆ _upstream s' ∧
  ∀ p c, _upstream s' !! p = Some c → up s p = c.

Lemma agrees_refl (s : tree) : agrees s s.
Proof.
  split_and!; [done..|]. intros p c Hp. by rewrite (get_upstream_hit p s c).
Qed.

Lemma agrees_up (s s' : tree) key : agrees s s' → up s' key = up s key.
Proof.
  intros (Ht & Hsub & Hent).
  induction key as [|x k IH] using rev_ind.
  - destruct (_upstream s' !! []) as [c|] eqn:Hc.
    + rewrite (get_upstream_hit [] s' c) by done. symmetry. by apply Hent.
    + rewrite get_upstream_root by done.
      rewrite get_upstream_root by (by eapply lookup_weaken_None).
      simpl. by rewrite Ht.
  - destruct (_upstream s' !! (k ++ [x])) as [c|] eqn:Hc.
    + rewrite (get_upstream_hit _ s' c) by done. symmetry. by apply Hent.
    + rewrite get_upstream_snoc by done.
      rewrite get_upstream_snoc by (by eapply lookup_weaken_None).
      simpl. by rewrite IH, Ht.
Qed.

Lemma agrees_get_upstream (s s' : tree) key :
  agrees s s' → agrees s (get_upstream vadd key s').2.
Proof.
  intros Hag. pose proof Hag as (Ht & Hsub & Hent). split_and!.
  - by rewrite get_upstream_terms.
  - etrans; [done|]. apply get_upstream_mono.
  - intros p c Hp. rewrite <- (agrees_up s s') by done.
    by eapply get_upstream_entries.
Qed.

(** The loop of [_freeze]. *)
Lemma freeze_loop_agrees (keys : list (list L)) (s s' : tree) :
  agrees s s' →
  agrees s (foldl (λ s key, (get_upstream vadd key s).2) s' keys).
Proof.
  revert s'. induction keys as [|k keys IH]; intros s' Hag; [done|].
  simpl. by apply IH, agrees_get_upstream.
Qed.

Lemma freeze_loop_cached (keys : list (list L)) (s : tree) key :
  key ∈ keys →
  is_Some (_upstream (foldl (λ s key, (get_upstream vadd key s).2) s keys)
             !! key).
Proof.
  revert s. induction keys as [|k keys IH]; intros s; [by inversion 1|].
  intros [->|Hin]%elem_of_cons; simpl; [|by apply IH].
  pose proof (freeze_loop_agrees keys _ _
                (agrees_refl (get_upstream vadd k s).2)) as (_ & Hsub & _).
  eapply lookup_weaken_is_Some; [|done].
  rewrite get_upstream_cached. eauto.
Qed.

Lemma freeze_agrees (s : tree) : agrees s (_freeze vadd s).
Proof.
  unfold _freeze.
  pose proof (freeze_loop_agrees (map_to_list (_terms s)).*1 s s
                (agrees_refl s)) as (? & ? & ?).
  by split_and!.
Qed.

Lemma freeze_frozen (s : tree) : _frozen (_freeze vadd s) = true.
Proof. done. Qed.

Lemma freeze_terms (s : tree) : _terms (_freeze vadd s) = _terms s.
Proof. apply freeze_agrees. Qed.

(** After [_freeze] every key with a local term has a cache entry, and
    every cache entry is the value [get_upstream] returned before. *)
Lemma freeze_cached (s : tree) key :
  is_Some (_terms s !! key) →
  _upstream (_freeze vadd s) !! key = Some (up s key).
Proof.
  intros [v Hv].
  destruct (freeze_loop_cached (map_to_list (_terms s)).*1 s key) as [c Hc].
  { apply list_elem_of_fmap. exists (key, v). split; [done|].
    by apply elem_of_map_to_list. }
  destruct (freeze_agrees s) as (_ & _ & Hent).
  change (_upstream (_freeze vadd s) !! key = Some c) in Hc.
  by rewrite Hc, (Hent _ _ Hc).
Qed.

(** **** Invariants of every instance *)

(** An instance that is not frozen has an empty cache. *)
Definition clean (s : tree) : Prop :=
  _frozen s = false → _upstream s = ∅.

(** A cached [None] belongs to a key without a local term. *)
Definition none_absent (s : tree) : Prop :=
  ∀ k, _upstream s !! k = Some None → _terms s !! k = None.

Lemma copy_id (s : tree) : copy s = s.
Proof. by destruct s. Qed.

Lemma up_None (s : tree) key :
  none_absent s → up s key = None → _terms s !! key = None.
Proof.
  intros Hna.
  destruct key as [|x k _] using rev_ind;
    [get_upstream_cases (@nil L) s | get_upstream_cases (k ++ [x]) s];
    try done.
  - intros ->. by apply Hna.
  - intros ->. by apply Hna.
  - by intros [_ ?]%opt_add_eq_None.
Qed.

Lemma clean_get_upstream (s : tree) key :
  clean s → clean (get_upstream vadd key s).2.
Proof.
  intros Hc. destruct (get_upstream_frozen key s) as [Hf|[_ ->]]; [|done].
  intros ?; congruence.
Qed.

Lemma get_upstream_freezes (s : tree) key :
  clean s → _frozen (get_upstream vadd key s).2 = true.
Proof.
  intros Hc. destruct (get_upstream_frozen key s) as [Hf|[Hs ->]]; [done|].
  destruct (_frozen s) eqn:Hf; [done|].
  rewrite Hc in Hs by done. by apply lookup_empty_is_Some in Hs.
Qed.

Lemma none_absent_agrees (s s' : tree) :
  agrees s s' → none_absent s → none_absent s'.
Proof.
  intros (Ht & _ & Hent) Hna k Hk. rewrite Ht.
  apply up_None; [done|]. by apply Hent.
Qed.

Lemma add_frozen (s : tree) key value :
  _frozen s = true → add vadd key value s = (Raise AssertionError, s).
Proof. unfold add. by intros ->. Qed.

Lemma add_unfrozen (s : tree) key value :
  _frozen s = false →
  (add vadd key value s).1 = Ok () ∧
  _frozen (add vadd key value s).2 = false ∧
  _upstream (add vadd key value s).2 = _upstream s ∧
  _terms (add vadd key value s).2 =
    <[key := match _terms s !! key with
             | Some old => vadd old value
             | None => value
             end]> (_terms s).
Proof. unfold add. intros ->. by destruct (_terms s !! key). Qed.

Lemma add_unfrozen_state (s : tree) key value :
  _frozen s = false →
  (add vadd key value s).2 =
    {| _terms := <[key := match _terms s !! key with
                          | Some old => vadd old value
                          | None => value
                          end]> (_terms s);
       _upstream := _upstream s;
       _frozen := false |}.
Proof. unfold add. intros ->. by destruct (_terms s !! key). Qed.

Lemma step_clean (o : op) (s : tree) :
  clean s → clean (step vadd torch_exp o s).
Proof.
  intros Hc. destruct o as [k v|k| | |k|]; simpl; try done.
  - destruct (_frozen s) eqn:Hf.
    + by rewrite add_frozen.
    + destruct (add_unfrozen s k v Hf) as (_ & _ & Hu & _).
      intros _. rewrite Hu. by apply Hc.
  - by apply clean_get_upstream.
  - unfold prune. by destruct (_frozen s) eqn:Hf.
Qed.

Lemma step_none_absent (o : op) (s : tree) :
  clean s → none_absent s → none_absent (step vadd torch_exp o s).
Proof.
  intros Hc Hna. destruct o as [k v|k| | |k|]; simpl; try done.
  - destruct (_frozen s) eqn:Hf.
    + by rewrite add_frozen.
    + destruct (add_unfrozen s k v Hf) as (_ & _ & Hu & _).
      intros p. rewrite Hu, Hc by done. by rewrite lookup_empty.
  - eapply none_absent_agrees; [|done].
    apply agrees_get_upstream, agrees_refl.
  - eapply none_absent_agrees; [apply freeze_agrees|done].
  - eapply none_absent_agrees; [apply freeze_agrees|done].
  - unfold prune. destruct (_frozen s) eqn:Hf; [|done]. simpl.
    intros p. simpl. intros [Hp Hk]%lookup_delete_Some.
    rewrite lookup_delete_ne by done. by apply Hna.
Qed.

(** The comprehension of [exp] over keys that are all cached with a
    value. *)
Lemma exp_entries_ok (s : tree) keys acc :
  (∀ k, k ∈ keys → ∃ v, _upstream s !! k = Some (Some v)) →
  ∃ m, exp_entries torch_exp s keys acc = Ok m ∧
    ∀ k, (k ∉ keys → m !! k = acc !! k) ∧
         (k ∈ keys → ∃ v, _upstream s !! k = Some (Some v) ∧
                          m !! k = Some (Some (torch_exp v))).
Proof.
  revert acc. induction keys as [|key keys IH]; intros acc Hk; simpl.
  - exists acc. split; [done|]. intros k. split; [done|]. by inversion 1.
  - destruct (Hk key) as [v Hv]; [by left|].
    unfold exp_entry. rewrite Hv.
    destruct (IH (<[key := Some (torch_exp v)]> acc)) as (m & -> & Hm).
    { intros k ?. apply Hk. by right. }
    exists m. split; [done|]. intros k. split.
    + intros [Hne Hnin]%not_elem_of_cons.
      destruct (Hm k) as [Hm1 _]. by rewrite Hm1, lookup_insert_ne.
    + intros Hin. destruct (decide (k ∈ keys)) as [Hin'|Hnin].
      * by apply Hm.
      * apply elem_of_cons in Hin as [->|?]; [|done].
        exists v. split; [done|].
        destruct (Hm key) as [Hm1 _]. by rewrite Hm1, lookup_insert_eq.
Qed.

Lemma exp_ok (s : tree) :
  none_absent s →
  ∃ r, (exp vadd torch_exp s).1 = Ok r ∧
    _terms r = ∅ ∧ _frozen r = true ∧
    ∀ key,
      _upstream r !! key =
        match _terms s !! key with
        | Some _ => Some (torch_exp <$> up s key)
        | None => None
        end ∧
      (is_Some (_terms s !! key) → is_Some (up s key)).
Proof.
  intros Hna.
  assert (∀ k, is_Some (_terms s !! k) →
            ∃ v, up s k = Some v ∧
                 _upstream (_freeze vadd s) !! k = Some (Some v)) as Hval.
  { intros k Hk. rewrite freeze_cached by done.
    destruct (up s k) as [v|] eqn:Hup; [eauto|].
    apply up_None in Hup; [|done]. rewrite Hup in Hk. by destruct Hk. }
  destruct (exp_entries_ok (_freeze vadd s)
              (map_to_list (_terms (_freeze vadd s))).*1 ∅) as (m & Hm & Hl).
  { intros k [[k' v] [-> Hin]]%list_elem_of_fmap.
    apply elem_of_map_to_list in Hin. rewrite freeze_terms in Hin.
    destruct (Hval k') as (w & _ & ?); eauto. }
  unfold exp. cbv zeta. cbn [fst]. rewrite Hm. eexists. split; [done|].
  split_and!; [done..|]. intros key. simpl. split.
  - destruct (_terms s !! key) as [v|] eqn:Hv.
    + destruct (Hl key) as [_ Hl2]. destruct Hl2 as (w & Hw & ->).
      { apply list_elem_of_fmap. exists (key, v). split; [done|].
        apply elem_of_map_to_list. by rewrite freeze_terms. }
      destruct (Hval key) as (w' & -> & Hw'); [eauto|].
      rewrite Hw in Hw'. by injection Hw' as ->.
    + destruct (Hl key) as [Hl1 _]. rewrite Hl1; [done|].
      intros [[k' v] [-> Hin]]%list_elem_of_fmap.
      apply elem_of_map_to_list in Hin. rewrite freeze_terms in Hin.
      simpl in Hv. congruence.
  - intros Hk. destruct (Hval key Hk) as (w & -> & _). eauto.
Qed.

Lemma instance_inv h (s : tree) :
  instance vadd torch_exp h s → clean s ∧ none_absent s.
Proof.
  induction 1 as [|h s o _ [Hc Hna]|h s _ [Hc Hna]|h s r _ [Hc Hna] Hr].
  - split; [done|]. intros k. simpl. by rewrite lookup_empty.
  - split; [by apply step_clean|by apply step_none_absent].
  - by rewrite copy_id.
  - destruct (exp_ok s Hna) as (r' & Hr' & Ht & Hf & _).
    rewrite Hr in Hr'. injection Hr' as <-. split.
    + intros ?; congruence.
    + intros k _. by rewrite Ht, lookup_empty.
Qed.

Lemma step_frozen (o : op) (s : tree) :
  _frozen s = true → _frozen (step vadd torch_exp o s) = true.
Proof.
  intros Hf. destruct o as [k v|k| | |k|]; simpl; try done.
  - by rewrite add_frozen.
  - by destruct (get_upstream_frozen k s) as [?|[_ ->]].
  - unfold prune. by rewrite Hf.
Qed.

Lemma step_freezing (o : op) (s : tree) :
  clean s → freezing o = true → _frozen (step vadd torch_exp o s) = true.
Proof.
  intros Hc. destruct o as [k v|k| | |k|]; simpl; try done.
  intros _. by apply get_upstream_freezes.
Qed.

Lemma step_not_freezing (o : op) (s : tree) :
  freezing o = false → _frozen s = false →
  _frozen (step vadd torch_exp o s) = false.
Proof.
  destruct o as [k v|k| | |k|]; simpl; try done; intros _ Hf.
  - by apply add_unfrozen.
  - unfold prune. by rewrite Hf.
Qed.

Lemma instance_frozen h (s : tree) :
  instance vadd torch_exp h s →
  (Forall (λ o, freezing o = false) h → _frozen s = false) ∧
  (Exists (λ o, freezing o = true) h → _frozen s = true).
Proof.
  induction 1 as [|h s o Hi [IH1 IH2]|h s Hi [IH1 IH2]|h s r Hi _ Hr].
  - split; [done|]. by inversion 1.
  - split.
    + intros [Hh Ho]%Forall_app. apply step_not_freezing; [|by apply IH1].
      by inversion Ho.
    + intros [Hh|Ho]%Exists_app.
      * by apply step_frozen, IH2.
      * apply step_freezing; [by eapply instance_inv|].
        inversion Ho as [?? Hfr|?? Hfr]; [done|inversion Hfr].
  - rewrite copy_id. split.
    + intros [Hh _]%Forall_app. by apply IH1.
    + intros [Hh|Ho]%Exists_app; [by apply IH2|].
      inversion Ho as [?? Hfr|?? Hfr]; [done|inversion Hfr].
  - destruct (exp_ok s) as (r' & Hr' & _ & Hf & _);
      [by eapply instance_inv|].
    rewrite Hr in Hr'. injection Hr' as <-. split; [|done].
    intros [_ Ho]%Forall_app. by inversion Ho.
Qed.

Lemma run_snoc ops (o : op) (s : tree) :
  run vadd torch_exp (ops ++ [o]) s =
    step vadd torch_exp o (run vadd torch_exp ops s).
Proof. unfold run. by rewrite foldl_snoc. Qed.

Lemma instance_run (ops : list (op (L:=L) (V:=V))) :
  instance vadd torch_exp ops (run vadd torch_exp ops init).
Proof.
  induction ops as [|o ops IH] using rev_ind; [constructor|].
  rewrite run_snoc. by constructor.
Qed.

(** **** Instances that were never pruned *)

(** Every cached value is the sum of the specification. *)
Definition coherent (s : tree) : Prop :=
  ∀ p c, _upstream s !! p = Some c → c = upstream_sum vadd (_terms s) p.

(** The cached keys are closed under taking the parent. *)
Definition closed (s : tree) : Prop :=
  ∀ k x, is_Some (_upstream s !! (k ++ [x])) → is_Some (_upstream s !! k).

Lemma coherent_up (s : tree) key :
  coherent s → up s key = upstream_sum vadd (_terms s) key.
Proof.
  intros Hco.
  induction key as [|x k IH] using rev_ind;
    [get_upstream_cases (@nil L) s | get_upstream_cases (k ++ [x]) s];
    try (by apply Hco); [done|].
  by rewrite IH, upstream_sum_snoc.
Qed.

Lemma coherent_agrees (s s' : tree) :
  agrees s s' → coherent s → coherent s'.
Proof.
  intros (Ht & _ & Hent) Hco p c Hp. rewrite Ht, <- coherent_up by done.
  symmetry. by apply Hent.
Qed.

Lemma closed_get_upstream (s : tree) key :
  closed s → closed (get_upstream vadd key s).2.
Proof.
  intros Hcl.
  induction key as [|x k IH] using rev_ind;
    [get_upstream_cases (@nil L) s | get_upstream_cases (k ++ [x]) s];
    try done.
  - intros k' x'. simpl. rewrite !lookup_insert_is_Some'.
    intros [?|?]; [by destruct k'|]. right. by eapply Hcl.
  - intros k' x'. simpl. rewrite !lookup_insert_is_Some'.
    intros [Heq|?]; right.
    + apply app_inj_tail in Heq as [<- _].
      rewrite get_upstream_cached. eauto.
    + by eapply IH.
Qed.

Lemma closed_freeze_loop (keys : list (list L)) (s : tree) :
  closed s → closed (foldl (λ s key, (get_upstream vadd key s).2) s keys).
Proof.
  revert s. induction keys as [|k keys IH]; intros s Hcl; [done|].
  simpl. by apply IH, closed_get_upstream.
Qed.

Lemma closed_freeze (s : tree) : closed s → closed (_freeze vadd s).
Proof.
  intros Hcl. unfold _freeze, closed. simpl.
  by apply closed_freeze_loop.
Qed.

Lemma closed_prefix (s : tree) p key :
  closed s → p `prefix_of` key →
  is_Some (_upstream s !! key) → is_Some (_upstream s !! p).
Proof.
  intros Hcl [q ->]. induction q as [|x q IH] using rev_ind.
  - by rewrite app_nil_r.
  - rewrite app_assoc. intros Hq. by eapply IH, Hcl.
Qed.

Definition sound (s : tree) : Prop := clean s ∧ coherent s ∧ closed s.

Lemma step_sound (o : op) (s : tree) :
  pruning o = false → sound s → sound (step vadd torch_exp o s).
Proof.
  intros Hp (Hc & Hco & Hcl). split; [by apply step_clean|].
  destruct o as [k v|k| | |k|]; simpl; try done.
  - destruct (_frozen s) eqn:Hf.
    + by rewrite add_frozen.
    + destruct (add_unfrozen s k v Hf) as (_ & _ & Hu & _).
      split; intros ?; rewrite Hu, Hc by done; intros ?.
      * by rewrite lookup_empty.
      * rewrite lookup_empty. by intros [??].
  - split; [|by apply closed_get_upstream].
    eapply coherent_agrees; [|done].
    apply agrees_get_upstream, agrees_refl.
  - split; [|by apply closed_freeze].
    eapply coherent_agrees; [apply freeze_agrees|done].
  - split; [|by apply closed_freeze].
    eapply coherent_agrees; [apply freeze_agrees|done].
Qed.

Lemma run_sound (ops : list (op (L:=L) (V:=V))) :
  Forall (λ o, pruning o = false) ops →
  sound (run vadd torch_exp ops init).
Proof.
  induction ops as [|o ops IH] using rev_ind; intros Hops.
  - split_and!; [done|..]; intros ?; simpl; intros ?;
      rewrite lookup_empty; [done|by intros [??]].
  - apply Forall_app in Hops as [Hops Ho]. rewrite run_snoc.
    apply step_sound; [by inversion Ho|by apply IH].
Qed.

(** **** [prune] *)

Lemma freeze_loop_hits (keys : list (list L)) (s : tree) :
  (∀ k, k ∈ keys → is_Some (_upstream s !! k)) →
  foldl (λ s key, (get_upstream vadd key s).2) s keys = s.
Proof.
  induction keys as [|k keys IH]; intros Hk; [done|]. simpl.
  destruct (Hk k) as [c Hc]; [by left|].
  rewrite (get_upstream_hit k s c) by done. simpl.
  apply IH. intros ??. apply Hk. by right.
Qed.

Lemma freeze_all_cached (s : tree) :
  _frozen s = true →
  (∀ k, is_Some (_terms s !! k) → is_Some (_upstream s !! k)) →
  _freeze vadd s = s.
Proof.
  intros Hf Hk. unfold _freeze. rewrite freeze_loop_hits.
  - destruct s. simpl in *. by subst.
  - intros k [[k' v] [-> Hin]]%list_elem_of_fmap.
    apply elem_of_map_to_list in Hin. apply Hk. eauto.
Qed.

(** **** Order of the [add] calls *)

Section add_order.
Hypothesis vadd_comm : ∀ x y, vadd x y = vadd y x.
Hypothesis vadd_assoc : ∀ x y z, vadd x (vadd y z) = vadd (vadd x y) z.

Lemma add_add_swap (s : tree) k1 v1 k2 v2 :
  (add vadd k2 v2 (add vadd k1 v1 s).2).2 =
  (add vadd k1 v1 (add vadd k2 v2 s).2).2.
Proof.
  destruct (_frozen s) eqn:Hf.
  { repeat (rewrite !(add_frozen s) by done; simpl). done. }
  rewrite !(add_unfrozen_state _ _ _ (proj1 (proj2
             (add_unfrozen s _ _ Hf)))).
  rewrite !(add_unfrozen_state s) by done. simpl. f_equal.
  destruct (decide (k1 = k2)) as [->|Hne].
  - rewrite !lookup_insert_eq, !insert_insert_eq. f_equal.
    destruct (_terms s !! k2) as [old|]; [|apply vadd_comm].
    by rewrite <- !vadd_assoc, (vadd_comm v1).
  - rewrite !lookup_insert_ne by done. by apply insert_insert_ne.
Qed.

Lemma add_all_permutation (l1 l2 : list (list L * V)) (s : tree) :
  l1 ≡ₚ l2 → add_all vadd l1 s = add_all vadd l2 s.
Proof.
  intros Hp. revert s. unfold add_all.
  induction Hp as [|x l1 l2 _ IH|x y l|l1 l2 l3 _ IH1 _ IH2]; intros s;
    simpl; [done|apply IH| |by rewrite IH1].
  by rewrite add_add_swap.
Qed.
End add_order.

(** **** The properties of the specification *)

(** C1, amended: on an instance built from [TreeSum()] by calls other
    than [prune], [get_upstream key] returns the sum of the local terms
    at [key] and at its proper prefixes, a key without local term
    counting as the additive identity, and it returns [None] when
    neither [key] nor any prefix has a local term. *)
Theorem get_upstream_sum (ops : list (op (L:=L) (V:=V))) (key : list L) :
  Forall (λ o, pruning o = false) ops →
  let s := run vadd torch_exp ops init in
  up s key = upstream_sum vadd (_terms s) key ∧
  ((∀ p, p `prefix_of` key → _terms s !! p = None) → up s key = None).
Proof.
  intros Hops s. destruct (run_sound ops Hops) as (_ & Hco & _).
  split; [by apply coherent_up|].
  intros Hk. rewrite coherent_up by done. by apply upstream_sum_absent.
Qed.

(** C2: an instance that no call of [get_upstream], [items] or [exp]
    has led to accepts [add]; once such a call has been made, on any
    key, [add] raises and leaves the instance as it is. *)
Theorem freeze_enforcement (h : list op) (s : tree) (key : list L)
    (value : V) :
  instance vadd torch_exp h s →
  (Forall (λ o, freezing o = false) h →
     (add vadd key value s).1 = Ok ()) ∧
  (Exists (λ o, freezing o = true) h →
     add vadd key value s = (Raise AssertionError, s)).
Proof.
  intros [H1 H2]%instance_frozen. split.
  - intros Hh. by apply add_unfrozen, H1.
  - intros Hh. by apply add_frozen, H2.
Qed.



(** C10, amended: on an instance built from [TreeSum()] by calls other
    than [prune], the mapping returned by [items()] has an entry for
    every key with a local term and for every prefix of such a key; the
    entry is the key's upstream sum, hence [None] for a prefix with no
    local term on its path. *)
Theorem items_prefix_closed (ops : list (op (L:=L) (V:=V)))
    (key p : list L) :
  Forall (λ o, pruning o = false) ops →
  let s := run vadd torch_exp ops init in
  is_Some (_terms s !! key) → p `prefix_of` key →
  (items vadd s).1 !! p = Some (upstream_sum vadd (_terms s) p) ∧
  ((∀ q, q `prefix_of` p → _terms s !! q = None) →
     (items vadd s).1 !! p = Some None).
Proof.
  intros Hops s Hkey Hp. destruct (run_sound ops Hops) as (_ & Hco & Hcl).
  fold s in Hco, Hcl.
  assert ((items vadd s).1 !! p = Some (upstream_sum vadd (_terms s) p))
    as Hitems.
  { unfold items. cbv zeta. cbn [fst].
    destruct (closed_prefix (_freeze vadd s) p key) as [c Hc];
      [by apply closed_freeze|done|by rewrite freeze_cached|].
    rewrite Hc. f_equal. rewrite <- (freeze_terms s).
    eapply coherent_agrees; [apply freeze_agrees|done..]. }
  split; [done|]. intros Hq. by rewrite Hitems, upstream_sum_absent.
Qed.

End facts.

(** *** The example of the specification, and the instances on which the
  amended properties differ from the unamended ones *)

Section examples.
Local Open Scope Z_scope.

Definition exp2 (x : Z) : Z := 2 ^ x.

Definition example_adds : list (op (L:=nat) (V:=Z)) :=
  [Add [] 2; Add [0%nat] 3; Add [0%nat; 1%nat] 5].

Example get_upstream_example :
  let s := run Z.add exp2 example_adds init in
  (get_upstream Z.add [0%nat; 1%nat] s).1 = Some 10 ∧
  (get_upstream Z.add [0%nat] s).1 = Some 5 ∧
  (get_upstream Z.add [] s).1 = Some 2 ∧
  (get_upstream Z.add [7%nat] s).1 = Some 2.
Proof. vm_compute. done. Qed.

Lemma get_upstream_sum_witness :
  Forall (λ o, pruning o = false) example_adds ∧
  (get_upstream Z.add [0%nat; 1%nat]
     (run Z.add exp2 example_adds init)).1 =
    upstream_sum Z.add (_terms (run Z.add exp2 example_adds init))
      [0%nat; 1%nat].
Proof.
  assert (Forall (λ o, pruning o = false) example_adds) as Hops
    by (repeat constructor).
  split; [exact Hops|].
  exact (proj1 (get_upstream_sum Z.add exp2 example_adds
                  [0%nat; 1%nat] Hops)).
Defined.

(** C1 as stated fails once an ancestor has been pruned: the cached
    sum of the descendant still contains the pruned term.  It also fails
    on the instance that [exp()] returns, which has cached values and no
    local term. *)
Lemma get_upstream_after_prune :
  (let s := run Z.add exp2
              [Add [] 2; Add [0%nat] 3; GetUpstream [0%nat]; Prune []]
              init in
   (get_upstream Z.add [0%nat] s).1 = Some 5 ∧
   upstream_sum Z.add (_terms s) [0%nat] = Some 3) ∧
  match (exp Z.add exp2
           (run Z.add exp2 [Add ([] : list nat) 0] init)).1 with
  | Ok r =>
      (get_upstream Z.add [] r).1 = Some 1 ∧
      upstream_sum Z.add (_terms r) [] = None
  | Raise _ => False
  end.
Proof. vm_compute. done. Qed.

Lemma freeze_enforcement_witness :
  (add Z.add [1%nat] 7 (run Z.add exp2 example_adds init)).1 = Ok () ∧
  add Z.add [1%nat] 7
    (run Z.add exp2 (example_adds ++ [GetUpstream [5%nat]]) init) =
    (Raise AssertionError,
     run Z.add exp2 (example_adds ++ [GetUpstream [5%nat]]) init).
Proof.
  split.
  - apply (freeze_enforcement Z.add exp2 example_adds _ [1%nat] 7
             (instance_run Z.add exp2 example_adds)).
    repeat constructor.
  - apply (freeze_enforcement Z.add exp2
             (example_adds ++ [GetUpstream [5%nat]]) _ [1%nat] 7
             (instance_run Z.add exp2 _)).
    apply Exists_app. right. by left.
Defined.



Definition frozen_by_query : t (L:=nat) (V:=Z) :=
  run Z.add exp2
    [Add [0%nat] 3; Add [0%nat; 1%nat] 5; GetUpstream [0%nat]] init.



Lemma items_prefix_closed_witness :
  let s := run Z.add exp2 [Add [0%nat; 1%nat] 5] init in
  (items Z.add s).1 !! [0%nat] =
    Some (upstream_sum Z.add (_terms s) [0%nat]).
Proof.
  refine (proj1 (items_prefix_closed Z.add exp2 [Add [0%nat; 1%nat] 5]
                   [0%nat; 1%nat] [0%nat] _ _ _)).
  - repeat constructor.
  - exists 5. reflexivity.
  - exists [1%nat]. reflexivity.
Defined.

(** C10 as stated fails after [prune]: the pruned prefix has no entry
    although its descendant has a local term and an entry. *)
Lemma items_after_prune_missing_prefix :
  let s := run Z.add exp2
             [Add [0%nat] 3; Add [0%nat; 1%nat] 5; Items; Prune [0%nat]]
             init in
  _terms s !! [0%nat; 1%nat] = Some 5 ∧
  (items Z.add s).1 !! [0%nat; 1%nat] = Some (Some 8) ∧
  (items Z.add s).1 !! [0%nat] = None.
Proof. vm_compute. done. Qed.

End examples.

End TreeSum.

(** ** Facts about the tensor model *)

Module TorchFacts.
Import Torch.
Section facts.
Context {R : Type} `{Scalar R}.

(** An index tuple within a shape. *)
Local Notation "'valid' idx shape" := (Forall2 lt idx shape)
  (at level 10, idx at level 9, shape at level 9, only parsing).

Lemma numel_cons n shape : numel (n :: shape) = n * numel shape.
Proof. done. Qed.

Lemma indices_cons n shape :
  indices (n :: shape) = seq 0 n ≫= λ i, cons i <$> indices shape.
Proof. done. Qed.

Lemma numel_app s1 s2 : numel (s1 ++ s2) = numel s1 * numel s2.
Proof.
  induction s1 as [|n s1 IH]; simpl; [lia|].
  fold (numel (s1 ++ s2)) (numel s1). rewrite IH. lia.
Qed.

Lemma numel_replicate_1 n : numel (replicate n 1) = 1.
Proof. induction n as [|n IH]; [done|]. simpl. fold (numel (replicate n 1)). lia. Qed.

Lemma numel_pos shape : Forall (λ n, 0 < n) shape → 0 < numel shape.
Proof.
  induction 1 as [|n s Hn _ IH]; simpl; [lia|]. fold (numel s). nia.
Qed.

Lemma length_bind_blocks {A} (g : nat → list A) m a n :
  (∀ k, length (g k) = m) → length (seq a n ≫= g) = n * m.
Proof.
  intros Hg. revert a. induction n as [|n IH]; intros a; [done|].
  change (seq a (S n)) with (a :: seq (S a) n).
  rewrite bind_cons, length_app, Hg, IH. lia.
Qed.

Lemma length_indices shape : length (indices shape) = numel shape.
Proof.
  induction shape as [|n s IH]; [done|]. rewrite indices_cons, numel_cons.
  apply length_bind_blocks. intros k. by rewrite length_fmap.
Qed.

Lemma lookup_bind_blocks {A} (g : nat → list A) m a n i j :
  (∀ k, length (g k) = m) → i < n → j < m →
  (seq a n ≫= g) !! (i * m + j) = g (a + i) !! j.
Proof.
  intros Hg. revert a i. induction n as [|n IH]; intros a i Hi Hj; [lia|].
  change (seq a (S n)) with (a :: seq (S a) n).
  rewrite bind_cons. destruct i as [|i].
  - rewrite lookup_app_l by (rewrite Hg; lia). by rewrite Nat.add_0_r.
  - rewrite lookup_app_r by (rewrite Hg; lia). rewrite Hg.
    replace (S i * m + j - m) with (i * m + j) by lia.
    rewrite IH by lia. by replace (S a + i) with (a + S i) by lia.
Qed.

Lemma lookup_bind_blocks_inv {A} (g : nat → list A) m a n j x :
  (∀ k, length (g k) = m) →
  (seq a n ≫= g) !! j = Some x →
  ∃ i r, i < n ∧ r < m ∧ j = i * m + r ∧ g (a + i) !! r = Some x.
Proof.
  intros Hg. revert a j. induction n as [|n IH]; intros a j; [done|].
  change (seq a (S n)) with (a :: seq (S a) n).
  rewrite bind_cons. destruct (decide (j < m)) as [Hj|Hj].
  - rewrite lookup_app_l by (rewrite Hg; lia). intros Hx.
    exists 0, j. rewrite Nat.add_0_r. split_and!; [lia|done|lia|done].
  - rewrite lookup_app_r by (rewrite Hg; lia). rewrite Hg.
    intros (i & r & ? & ? & ? & Hx)%IH.
    exists (S i), r. replace (a + S i) with (S a + i) by lia.
    split_and!; [lia|done|lia|done].
Qed.

Lemma elem_of_indices idx shape : idx ∈ indices shape ↔ valid idx shape.
Proof.
  revert idx. induction shape as [|n s IH]; intros idx.
  - simpl. rewrite list_elem_of_singleton. split; [by intros ->|].
    apply Forall2_nil_inv_r.
  - rewrite indices_cons, list_elem_of_bind. split.
    + intros (i & (idx' & -> & Hidx)%list_elem_of_fmap & Hi%elem_of_seq).
      constructor; [lia|]. by apply IH.
    + intros (i & idx' & Hi & Hidx & ->)%Forall2_cons_inv_r.
      exists i. split; [|apply elem_of_seq; lia].
      apply list_elem_of_fmap. exists idx'. split; [done|]. by apply IH.
Qed.

Lemma offset_lt idx shape : valid idx shape → offset shape idx < numel shape.
Proof.
  induction 1 as [|i n idx s Hi _ IH]; simpl; [lia|]. fold (numel s). nia.
Qed.

Lemma indices_lookup idx shape :
  valid idx shape → indices shape !! offset shape idx = Some idx.
Proof.
  induction 1 as [|i n idx s Hi Hv IH]; [done|].
  rewrite indices_cons. cbn [offset].
  rewrite (lookup_bind_blocks _ (numel s)).
  - by rewrite list_lookup_fmap, IH.
  - intros k. by rewrite length_fmap, length_indices.
  - done.
  - by apply offset_lt.
Qed.

Lemma indices_lookup_inv shape j idx :
  indices shape !! j = Some idx → offset shape idx = j ∧ valid idx shape.
Proof.
  revert j idx. induction shape as [|n s IH]; intros j idx.
  - destruct j; [|done]. by intros [= <-].
  - rewrite indices_cons.
    intros (i & r & Hi & Hr & -> & Hx)%(lookup_bind_blocks_inv _ (numel s));
      [|intros k; by rewrite length_fmap, length_indices].
    rewrite list_lookup_fmap in Hx.
    destruct (indices s !! r) as [idx'|] eqn:Hidx; [|done].
    injection Hx as <-. apply IH in Hidx as [<- Hv]. simpl. split; [done|].
    constructor; [lia|done].
Qed.

Lemma item_tabulate shape (f : list nat → R) idx :
  valid idx shape → item (tabulate shape f) idx = f idx.
Proof.
  intros Hv. unfold item, tabulate. simpl.
  by rewrite list_lookup_fmap, indices_lookup.
Qed.

Lemma tabulate_ext shape (f g : list nat → R) :
  (∀ idx, valid idx shape → f idx = g idx) → tabulate shape f = tabulate shape g.
Proof.
  intros Hfg. unfold tabulate. f_equal. apply list_fmap_ext.
  intros i idx Hidx. apply Hfg, elem_of_indices.
  by eapply list_elem_of_lookup_2.
Qed.

Lemma wf_tabulate shape (f : list nat → R) : wf (tabulate shape f).
Proof. unfold wf. simpl. by rewrite length_fmap, length_indices. Qed.

Lemma tabulate_item (t : tensor R) : wf t → tabulate (tshape t) (item t) = t.
Proof.
  intros Hwf. destruct t as [s d]. unfold tabulate, wf in *. simpl in *.
  f_equal. apply list_eq. intros j. rewrite list_lookup_fmap.
  destruct (indices s !! j) as [idx|] eqn:Hidx; simpl.
  - apply indices_lookup_inv in Hidx as [<- Hv]. unfold item. simpl.
    destruct (d !! offset s idx) eqn:Hd; [done|].
    apply lookup_ge_None in Hd. apply offset_lt in Hv. lia.
  - apply lookup_ge_None in Hidx. rewrite length_indices in Hidx.
    symmetry. apply lookup_ge_None. lia.
Qed.

(** Two well-formed tensors of one shape with the same elements are
    equal. *)
Lemma tensor_ext (t1 t2 : tensor R) :
  wf t1 → wf t2 → tshape t1 = tshape t2 →
  (∀ idx, valid idx (tshape t1) → item t1 idx = item t2 idx) → t1 = t2.
Proof.
  intros H1 H2 Hs Hi. rewrite <- (tabulate_item t1), <- (tabulate_item t2) by done.
  rewrite <- Hs. by apply tabulate_ext.
Qed.

End facts.
End TorchFacts.

(** ** Sums in exact arithmetic *)

Module SumFacts.
Import Torch TorchFacts.
Section facts.
Context {R : Type} `{ExactScalar R}.

Lemma radd_0_r (x : R) : radd x rzero = x.
Proof. by rewrite radd_comm, radd_0_l. Qed.

Lemma big_sum_ext n (f g : nat → R) :
  (∀ i, i < n → f i = g i) → big_sum n f = big_sum n g.
Proof.
  intros Hfg. unfold big_sum.
  assert (∀ i, i ∈ seq 0 n → f i = g i) as Hin
    by (intros i Hi%elem_of_seq; apply Hfg; lia).
  induction (seq 0 n) as [|i l IH]; [done|]. simpl.
  rewrite Hin by left. rewrite IH; [done|]. intros ??. apply Hin. by right.
Qed.

Lemma big_sum_const n (x : R) : big_sum n (λ _, x) = nsmul n x.
Proof.
  unfold big_sum, nsmul. generalize 0.
  induction n as [|n IH]; intros a; [done|]. simpl. by rewrite IH.
Qed.

Lemma nsmul_1 (x : R) : nsmul 1 x = x.
Proof. apply radd_0_r. Qed.

Lemma nsmul_add a b (x : R) : nsmul (a + b) x = radd (nsmul a x) (nsmul b x).
Proof.
  unfold nsmul. induction a as [|a IH]; simpl; [by rewrite radd_0_l|].
  by rewrite IH, radd_assoc.
Qed.

Lemma nsmul_mul a b (x : R) : nsmul a (nsmul b x) = nsmul (a * b) x.
Proof.
  induction a as [|a IH]; [done|].
  change (S a * b) with (b + a * b). rewrite nsmul_add, <- IH. done.
Qed.

End facts.

(** On integers, taking [x] [n] times is the product [n * x]. *)
Lemma nsmul_Z (n : nat) (x : Z) : nsmul n x = (Z.of_nat n * x)%Z.
Proof.
  unfold nsmul. induction n as [|n IH]; [simpl; lia|].
  rewrite Nat.iter_succ, IH. simpl radd. lia.
Qed.

End SumFacts.

(** ** Reductions of tabulated tensors *)

Module ReduceFacts.
Import Torch TorchFacts SumFacts.
Section facts.
Context {R : Type} `{ExactScalar R}.

Local Notation "'valid' idx shape" := (Forall2 lt idx shape)
  (at level 10, idx at level 9, shape at level 9, only parsing).

Lemma axis_neg rank k :
  1 ≤ k ≤ rank → axis rank (- Z.of_nat k) = Ok (rank - k).
Proof.
  intros Hk. unfold axis.
  destruct (decide _) as [|_]; [lia|]. destruct (decide _) as [_|]; [|lia].
  f_equal. lia.
Qed.

Lemma axis_0 rank : 0 < rank → axis rank 0 = Ok 0.
Proof. intros Hr. unfold axis. destruct (decide _) as [_|]; [done|lia]. Qed.

Lemma tuple_get_neg shape k n :
  1 ≤ k ≤ length shape → shape !! (length shape - k) = Some n →
  tuple_get shape (- Z.of_nat k) = Ok n.
Proof.
  intros Hk Hn. unfold tuple_get. rewrite axis_neg by done. simpl.
  by rewrite (nth_lookup_Some _ _ _ n).
Qed.

(** [sum(0)] of a tabulated tensor. *)
Lemma sum_dim_0_tabulate n shape (f : list nat → R) :
  sum_dim (tabulate (n :: shape) f) 0 false =
    Ok (tabulate shape (λ idx, big_sum n (λ i, f (i :: idx)))).
Proof.
  unfold sum_dim, dim. cbn [tshape tabulate].
  rewrite axis_0 by (simpl; lia). simpl. f_equal.
  apply tabulate_ext. intros idx Hidx. apply big_sum_ext. intros i Hi.
  apply (item_tabulate (n :: shape)). by constructor.
Qed.

(** [sum(-k, keepdim=True)] of a tabulated tensor. *)
Lemma sum_dim_keep_tabulate shape (f : list nat → R) j n :
  shape !! j = Some n →
  sum_dim (tabulate shape f) (- Z.of_nat (length shape - j)) true =
    Ok (tabulate (<[j := 1]> shape)
          (λ idx, big_sum n (λ i, f (<[j := i]> idx)))).
Proof.
  intros Hj. pose proof (lookup_lt_Some _ _ _ Hj) as Hlt.
  unfold sum_dim, dim. simpl. rewrite axis_neg by lia. simpl.
  replace (length shape - (length shape - j)) with j by lia.
  rewrite (nth_lookup_Some _ _ _ n) by done. f_equal.
  apply tabulate_ext. intros idx Hidx. apply big_sum_ext. intros i Hi.
  apply item_tabulate.
  rewrite <- (list_insert_id shape j n), <- (list_insert_insert_eq shape j n 1)
    by done.
  by apply Forall2_insert.
Qed.

Lemma total_indices_one n (f : list nat → R) :
  total (f <$> indices [n]) = big_sum n (λ i, f [i]).
Proof.
  rewrite indices_cons. unfold big_sum, total. generalize 0.
  induction n as [|n IH]; intros a; [done|].
  change (seq a (S n)) with (a :: seq (S a) n).
  rewrite bind_cons, fmap_app, foldr_app, IH. done.
Qed.

(** [sum_leftmost] on one axis is [sum(0)]. *)
Lemma sum_leftmost_one (t : tensor R) n shape :
  tshape t = n :: shape → sum_dim t 0 false = Ok (sum_leftmost t 1).
Proof.
  intros Hs. unfold sum_dim, sum_leftmost, dim. rewrite Hs.
  rewrite axis_0 by (simpl; lia). cbn [mbind outcome_bind]. f_equal.
  apply (tabulate_ext shape). intros idx _.
  change (big_sum n (λ i, item t (i :: idx)) =
          total ((λ lead, item t (lead ++ idx)) <$> indices [n])).
  by rewrite total_indices_one.
Qed.

(** *** The element read by a broadcast *)

Lemma source_index_cons shape i idx :
  length shape ≤ length idx →
  source_index shape (i :: idx) = source_index shape idx.
Proof.
  intros Hl. unfold source_index. simpl.
  by replace (S (length idx) - length shape)
    with (S (length idx - length shape)) by lia.
Qed.

Lemma zip_with_mask_insert (shape : list nat) b i l :
  shape !! b = Some 1 →
  zip_with (λ s i : nat, if decide (s = 1) then 0 else i) shape (<[b := i]> l) =
  zip_with (λ s i : nat, if decide (s = 1) then 0 else i) shape l.
Proof.
  revert b l. induction shape as [|s shape IH]; intros b l Hb; [done|].
  destruct l as [|x l]; [done|]. destruct b as [|b]; simpl in *.
  - injection Hb as ->. done.
  - by rewrite IH.
Qed.

(** Changing the index along an axis of size 1 of the target, or along
    an axis that the source does not have, reads the same element. *)
Lemma source_index_insert shape pad a i idx :
  length idx = pad + length shape →
  (replicate pad 1 ++ shape) !! a = Some 1 →
  source_index shape (<[a := i]> idx) = source_index shape idx.
Proof.
  intros Hl Ha. unfold source_index. rewrite length_insert.
  replace (length idx - length shape) with pad by lia.
  destruct (decide (a < pad)) as [Hlt|Hge].
  - by rewrite drop_insert_lt.
  - rewrite drop_insert_ge by lia. apply zip_with_mask_insert.
    rewrite lookup_app_r in Ha by (rewrite length_replicate; lia).
    by rewrite length_replicate in Ha.
Qed.

Lemma zip_with_mask_valid (shape l : list nat) :
  valid l shape →
  zip_with (λ s i : nat, if decide (s = 1) then 0 else i) shape l = l.
Proof.
  induction 1 as [|i s l shape Hi _ IH]; [done|]. simpl. rewrite IH.
  destruct (decide _); [f_equal; lia|done].
Qed.

Lemma source_index_valid shape pad idx :
  valid idx (replicate pad 1 ++ shape) →
  source_index shape idx = drop pad idx.
Proof.
  intros Hv. pose proof (Forall2_length _ _ _ Hv) as Hl.
  rewrite length_app, length_replicate in Hl.
  unfold source_index. replace (length idx - length shape) with pad by lia.
  apply zip_with_mask_valid.
  apply (Forall2_drop _ _ _ pad) in Hv.
  by rewrite drop_app_length' in Hv by (by rewrite length_replicate).
Qed.

(** Axes of size 1 in front do not change the row-major data. *)
Lemma indices_replicate_1 pad shape :
  indices (replicate pad 1 ++ shape) =
    (replicate pad 0 ++.) <$> indices shape.
Proof.
  induction pad as [|pad IH].
  - simpl. by rewrite list_fmap_id.
  - change (replicate (S pad) 1 ++ shape)
      with (1 :: (replicate pad 1 ++ shape)).
    rewrite indices_cons, IH. change (seq 0 1) with [0].
    rewrite bind_singleton, <- list_fmap_compose. done.
Qed.

Lemma tabulate_pad (t : tensor R) pad (g : R → R) :
  wf t →
  tabulate (replicate pad 1 ++ tshape t) (λ idx, g (item t (drop pad idx))) =
    Tensor (replicate pad 1 ++ tshape t) (g <$> tdata t).
Proof.
  intros Hwf. unfold tabulate. f_equal.
  rewrite indices_replicate_1, <- list_fmap_compose.
  pose proof (f_equal tdata (tabulate_item t Hwf)) as Hd. simpl in Hd.
  transitivity (g <$> (item t <$> indices (tshape t))); [|by rewrite Hd].
  rewrite <- list_fmap_compose. apply list_fmap_ext. intros i idx _. simpl.
  by rewrite drop_app_length' by (by rewrite length_replicate).
Qed.

End facts.
End ReduceFacts.

(** ** The reduction helpers on a broadcast *)

Module RoundTrip.
Import Torch TorchFacts SumFacts ReduceFacts.
Section facts.
Context {R : Type} `{ExactScalar R}.

Local Notation "'valid' idx shape" := (Forall2 lt idx shape)
  (at level 10, idx at level 9, shape at level 9, only parsing).

Lemma sum_excess_done (source : tensor R) rank :
  dim source ≤ rank → sum_excess source rank = Ok source.
Proof.
  intros Hd. funelim (sum_excess source rank); try done.
  all: match goal with
       | E : bool_decide _ = true |- _ =>
           pose proof (bool_decide_eq_true_1 _ E); lia
       end.
Qed.

Lemma sum_excess_step (source source' : tensor R) rank :
  rank < dim source → sum_dim source 0 false = Ok source' →
  sum_excess source rank = sum_excess source' rank.
Proof.
  intros Hd Hs. funelim (sum_excess source rank).
  all: try match goal with
           | E : bool_decide _ = false |- _ =>
               pose proof (bool_decide_eq_false_1 _ E); lia
           end.
  all: congruence.
Qed.

(** The body of the [for] loop of [reduce_to_shape]. *)
Definition reduce_body (shape : list nat) (source : tensor R) (k : nat) :
    outcome (tensor R) :=
  a ← size source (- Z.of_nat k);
  b ← tuple_get shape (- Z.of_nat k);
  if decide (b < a) then sum_dim source (- Z.of_nat k) true else Ok source.

Lemma reduce_to_shape_body (source : tensor R) shape :
  reduce_to_shape source shape =
    source' ← sum_excess source (length shape);
    for_each (seq 1 (dim source')) (reduce_body shape) source'.
Proof. done. Qed.

Lemma reduce_to_target_shape (source target : tensor R) :
  reduce_to_target source target = reduce_to_shape source (tshape target).
Proof. done. Qed.

Section broadcast.
Variable t : tensor R.
Variable pad : nat.

(** The elements of the broadcast of [t], taken [m] times. *)
Let F (m : nat) (idx : list nat) : R :=
  nsmul m (item t (source_index (tshape t) idx)).

Let target : list nat := replicate pad 1 ++ tshape t.

(** The [while] loop sums the leading axes away. *)
Lemma sum_excess_broadcast lead rest m :
  length (tshape t) ≤ length rest →
  sum_excess (tabulate (lead ++ rest) (F m)) (length rest) =
    Ok (tabulate rest (F (numel lead * m))).
Proof.
  intros Hl. revert m. induction lead as [|n lead IH]; intros m.
  - simpl. rewrite Nat.add_0_r. apply sum_excess_done. done.
  - erewrite sum_excess_step;
      [|unfold dim; simpl; rewrite length_app; lia
       |apply sum_dim_0_tabulate].
    replace (numel (n :: lead) * m) with (numel lead * (n * m))
      by (rewrite numel_cons; lia).
    rewrite <- IH. f_equal. apply tabulate_ext. intros idx Hidx.
    apply Forall2_length in Hidx. rewrite length_app in Hidx.
    unfold F. rewrite <- nsmul_mul, <- big_sum_const.
    apply big_sum_ext. intros i _. by rewrite source_index_cons by lia.
Qed.

(** An axis of the target and the axis of the expanded shape at the same
    place. *)
Definition compat (s n : nat) : Prop := s = n ∨ (s = 1 ∧ 1 ≤ n).

(** One turn of the [for] loop, at the last axis that is still the one
    of the expanded shape. *)
Lemma reduce_body_step Tp ta Sp sa Ssuf m :
  target = (Sp ++ [sa]) ++ Ssuf → length Sp = length Tp → compat sa ta →
  reduce_body target (tabulate ((Tp ++ [ta]) ++ Ssuf) (F m))
    (S (length Ssuf)) =
    Ok (tabulate (Tp ++ sa :: Ssuf)
          (F (if decide (sa < ta) then ta * m else m))).
Proof.
  intros Ht Hlen Hsa.
  assert (((Tp ++ [ta]) ++ Ssuf) !! length Tp = Some ta) as Hta
    by (rewrite <- app_assoc; apply list_lookup_middle; done).
  assert (target !! length Tp = Some sa) as Hsa'
    by (rewrite Ht, <- app_assoc; apply list_lookup_middle; done).
  assert (length target = length Tp + S (length Ssuf)) as Hlt
    by (rewrite Ht, !length_app; simpl; lia).
  assert (length ((Tp ++ [ta]) ++ Ssuf) = length Tp + S (length Ssuf))
    as Hls by (rewrite !length_app; simpl; lia).
  assert (length Tp + S (length Ssuf) - S (length Ssuf) = length Tp)
    as Hsub by lia.
  unfold reduce_body, size. cbn [tshape tabulate].
  rewrite (tuple_get_neg ((Tp ++ [ta]) ++ Ssuf) _ ta)
    by (rewrite Hls, ?Hsub; done || lia).
  rewrite (tuple_get_neg target _ sa) by (rewrite Hlt, ?Hsub; done || lia).
  cbn [mbind outcome_bind].
  destruct (decide (sa < ta)) as [Hlt'|Hge].
  - destruct Hsa as [->|[-> _]]; [lia|].
    replace (S (length Ssuf))
      with (length ((Tp ++ [ta]) ++ Ssuf) - length Tp) by lia.
    rewrite (sum_dim_keep_tabulate _ _ _ ta) by done.
    rewrite <- app_assoc. simpl.
    replace (<[length Tp := 1]> (Tp ++ ta :: Ssuf)) with (Tp ++ 1 :: Ssuf)
      by (by rewrite <- (Nat.add_0_r (length Tp)), insert_app_r).
    f_equal. apply tabulate_ext. intros idx Hidx.
    apply Forall2_length in Hidx.
    unfold F. rewrite <- nsmul_mul, <- big_sum_const.
    apply big_sum_ext. intros i _.
    rewrite (source_index_insert _ pad); [done| |done].
    rewrite Hidx, length_app. simpl.
    rewrite <- (length_replicate pad 1), <- length_app. fold target. lia.
  - destruct Hsa as [->|[-> ?]]; [|replace ta with 1 by lia];
      by rewrite <- app_assoc.
Qed.

(** The [for] loop: the axes behind are already those of the target, the
    ones in front are still those of the expanded shape. *)
Lemma reduce_loop Tpre :
  ∀ Spre Ssuf m,
    target = Spre ++ Ssuf → Forall2 compat Spre Tpre →
    ∃ m', m' * numel target = m * numel (Tpre ++ Ssuf) ∧
      for_each (seq (S (length Ssuf)) (length Tpre)) (reduce_body target)
        (tabulate (Tpre ++ Ssuf) (F m)) = Ok (tabulate target (F m')).
Proof.
  induction Tpre as [|ta Tp IH] using rev_ind; intros Spre Ssuf m Ht Hc.
  - apply Forall2_nil_inv_r in Hc as ->. exists m. by rewrite Ht.
  - apply Forall2_app_inv_r in Hc as (Sp & Sa & Hp & Ha & ->).
    apply Forall2_cons_inv_r in Ha as (sa & Sn & Hsa & Hn & ->).
    apply Forall2_nil_inv_r in Hn as ->.
    pose proof (Forall2_length _ _ _ Hp) as Hlen.
    destruct (IH Sp (sa :: Ssuf) (if decide (sa < ta) then ta * m else m))
      as (m' & Hm' & Hloop); [by rewrite Ht, <- app_assoc|done|].
    exists m'. split.
    + rewrite Hm', <- !app_assoc, !numel_app.
      rewrite !numel_cons. change (numel []) with 1.
      destruct (decide (sa < ta)) as [Hlt'|Hge].
      * destruct Hsa as [->|[-> _]]; [lia|nia].
      * destruct Hsa as [->|[-> ?]]; [lia|].
        replace ta with 1 by lia. lia.
    + rewrite length_app, Nat.add_1_r. cbn [length seq for_each].
      rewrite (reduce_body_step Tp ta Sp sa) by done.
      apply Hloop.
Qed.

End broadcast.

Lemma compat_expandable (shape target : list nat) :
  Forall2 le shape target →
  Forall2 (λ s n, s = n ∨ s = 1) shape target →
  Forall2 compat shape target.
Proof.
  induction 1 as [|s n shape target Hsn _ IH]; [constructor|].
  intros [Hs Hrest]%Forall2_cons. constructor; [|by apply IH].
  destruct Hs as [-> | ->]; [by left|by right].
Qed.

Lemma compat_padded pad (shape target : list nat) :
  Forall2 le (replicate pad 1 ++ shape) target →
  Forall2 (λ s n, s = n ∨ s = 1) shape (drop pad target) →
  Forall2 compat (replicate pad 1 ++ shape) target.
Proof.
  revert target. induction pad as [|pad IH]; intros target; simpl.
  - rewrite drop_0. apply compat_expandable.
  - intros (n & target' & Hn & Hle & ->)%Forall2_cons_inv_l Hex.
    constructor; [by right|]. by apply IH.
Qed.

(** The reduction of a broadcast: the elements of the original tensor,
    each taken as many times as the broadcast repeats it. *)
Lemma reduce_to_shape_expand (t x : tensor R) (target : list nat) (pad : nat) :
  wf t → larger (replicate pad 1 ++ tshape t) target →
  expand t target = Ok x →
  reduce_to_shape x (replicate pad 1 ++ tshape t) =
    Ok (Tensor (replicate pad 1 ++ tshape t)
          (nsmul (numel target / numel (tshape t)) <$> tdata t)).
Proof.
  intros Hwf [Hlen Hle] Hx. unfold expand in Hx.
  destruct (expandable (tshape t) target) eqn:He; [|done]. injection Hx as <-.
  apply andb_prop in He as [_ HF%bool_decide_eq_true_1].
  set (S' := replicate pad 1 ++ tshape t) in *.
  assert (length S' = pad + length (tshape t)) as HlS
    by (unfold S'; by rewrite length_app, length_replicate).
  set (d := length target - length S') in *.
  assert (d + pad + length (tshape t) = length target) as Hd
    by (unfold d; lia).
  clearbody d.
  assert (length (drop d target) = length S') as HlT
    by (rewrite length_drop; lia).
  assert (Forall2 compat S' (drop d target)) as Hc.
  { apply compat_padded; [done|]. rewrite drop_drop.
    by replace (d + pad) with (length target - length (tshape t)) by lia. }
  rewrite reduce_to_shape_body.
  rewrite (tabulate_ext target _
             (λ idx, nsmul 1 (item t (source_index (tshape t) idx))))
    by (intros; by rewrite nsmul_1).
  rewrite <- (take_drop d target) at 1. rewrite <- HlT.
  rewrite (sum_excess_broadcast t) by lia.
  cbn [mbind outcome_bind]. unfold dim. cbn [tshape tabulate].
  destruct (reduce_loop t pad (drop d target) S' []
              (numel (take d target) * 1)) as (m' & Hm' & Hloop);
    [by rewrite app_nil_r|done|].
  rewrite app_nil_r in Hloop, Hm'. cbn [length] in Hloop.
  etrans; [exact Hloop|]. f_equal. unfold S'.
  rewrite <- tabulate_pad by done.
  apply tabulate_ext. intros idx Hidx.
  rewrite (source_index_valid _ pad) by done. f_equal.
  assert (m' * numel (tshape t) = numel target) as Hm.
  { rewrite <- (take_drop d target), numel_app.
    unfold S' in Hm'. rewrite numel_app, numel_replicate_1 in Hm'. lia. }
  apply offset_lt in Hidx. rewrite numel_app, numel_replicate_1 in Hidx.
  rewrite <- Hm. symmetry. apply Nat.div_mul. lia.
Qed.

End facts.
End RoundTrip.

(** ** Facts about MultiViewTensor *)

Module MultiViewTensorFacts.
Import Torch TorchFacts SumFacts ReduceFacts MultiViewTensor.
Section facts.
Context {R : Type} `{ExactScalar R}.

Local Notation "'valid' idx shape" := (Forall2 lt idx shape)
  (at level 10, idx at level 9, shape at level 9, only parsing).

(** *** Addition of tensors of one shape *)

(** The elementwise sum of two tensors of the shape of the first. *)
Definition ew_add (a b : tensor R) : tensor R :=
  tabulate (tshape a) (λ idx, radd (item a idx) (item b idx)).

Lemma broadcast_rev_same (s : list nat) : broadcast_rev s s = Some s.
Proof.
  induction s as [|n s IH]; [done|]. simpl.
  destruct (decide _); [|done]. by rewrite IH.
Qed.

Lemma broadcast_shape_same (s : list nat) : broadcast_shape s s = Some s.
Proof.
  unfold broadcast_shape. rewrite broadcast_rev_same. simpl.
  by rewrite reverse_involutive.
Qed.

Lemma source_index_same (shape idx : list nat) :
  valid idx shape → source_index shape idx = idx.
Proof. intros Hv. by rewrite (source_index_valid shape 0). Qed.

Lemma add_same_shape (a b : tensor R) :
  tshape a = tshape b → Torch.add a b = Ok (ew_add a b).
Proof.
  intros Hs. unfold Torch.add. rewrite <- Hs, broadcast_shape_same.
  f_equal. apply tabulate_ext. intros idx Hidx.
  by rewrite source_index_same.
Qed.

Lemma ew_add_shape (a b : tensor R) : tshape (ew_add a b) = tshape a.
Proof. done. Qed.

Lemma ew_add_comm (a b : tensor R) :
  tshape a = tshape b → ew_add a b = ew_add b a.
Proof.
  intros Hs. unfold ew_add. rewrite Hs. apply tabulate_ext.
  intros idx _. apply radd_comm.
Qed.

Lemma ew_add_swap (a b c : tensor R) :
  ew_add (ew_add a b) c = ew_add (ew_add a c) b.
Proof.
  unfold ew_add at 1 3. rewrite !ew_add_shape. apply tabulate_ext.
  intros idx Hidx. unfold ew_add. rewrite !item_tabulate by done.
  by rewrite <- !radd_assoc, (radd_comm (item b idx)).
Qed.

(** *** Entries kept under their own shape *)

Definition keyed (m : gmap (list nat) (tensor R)) : Prop :=
  ∀ s v, m !! s = Some v → tshape v = s.

Definition keyed_item (sv : list nat * tensor R) : Prop := tshape sv.2 = sv.1.

(** What [add_item] does when no addition raises. *)
Definition merge_item (m : gmap (list nat) (tensor R))
    (sv : list nat * tensor R) : gmap (list nat) (tensor R) :=
  <[sv.1 := match m !! sv.1 with
            | Some old => ew_add old sv.2
            | None => sv.2
            end]> m.

Lemma keyed_empty : keyed ∅.
Proof. intros s v. by rewrite lookup_empty. Qed.

Lemma keyed_insert m s v : keyed m → tshape v = s → keyed (<[s := v]> m).
Proof.
  intros Hm Hv s' v'. rewrite lookup_insert. case_decide; [|by apply Hm].
  by intros [= <-]; subst.
Qed.

Lemma keyed_merge_item m sv : keyed m → keyed_item sv → keyed (merge_item m sv).
Proof.
  intros Hm Hsv s v. unfold merge_item. rewrite lookup_insert.
  case_decide as Hs; [|by apply Hm]. subst s. intros [= <-].
  destruct (m !! sv.1) as [old|] eqn:Hold; [|done].
  rewrite ew_add_shape. by apply Hm.
Qed.

Lemma add_item_keyed m s v :
  keyed m → tshape v = s → add_item s v m = (Ok (), merge_item m (s, v)).
Proof.
  intros Hm Hv. unfold add_item, merge_item. simpl.
  destruct (m !! s) as [old|] eqn:Hold; [|done].
  rewrite add_same_shape; [done|]. rewrite Hv. by apply Hm.
Qed.

Lemma add_items_keyed items m :
  keyed m → Forall keyed_item items →
  add_items items m = (Ok (), foldl merge_item m items).
Proof.
  intros Hm Hitems. revert m Hm.
  induction Hitems as [|[s v] items Hsv _ IH]; intros m Hm; [done|].
  simpl. rewrite add_item_keyed by done. apply IH.
  by apply keyed_merge_item.
Qed.

Lemma keyed_foldl_merge items m :
  keyed m → Forall keyed_item items → keyed (foldl merge_item m items).
Proof.
  intros Hm Hitems. revert m Hm.
  induction Hitems as [|sv items Hsv _ IH]; intros m Hm; [done|].
  simpl. by apply IH, keyed_merge_item.
Qed.

Lemma merge_item_swap m sv1 sv2 :
  keyed m → keyed_item sv1 → keyed_item sv2 →
  merge_item (merge_item m sv1) sv2 = merge_item (merge_item m sv2) sv1.
Proof.
  destruct sv1 as [s1 v1], sv2 as [s2 v2]. unfold keyed_item, merge_item.
  simpl. intros Hm H1 H2. destruct (decide (s1 = s2)) as [->|Hne].
  - rewrite !lookup_insert_eq, !insert_insert_eq. f_equal.
    destruct (m !! s2) as [old|]; [apply ew_add_swap|].
    apply ew_add_comm. congruence.
  - rewrite !lookup_insert_ne by done. by apply insert_insert_ne.
Qed.

(** The entry for a shape is the sum of the items of that shape, in the
    order in which they are merged. *)
Fixpoint sum_items (acc : option (tensor R)) (items : list (tensor R)) :
    option (tensor R) :=
  match items with
  | [] => acc
  | v :: items =>
      sum_items (Some match acc with
                      | Some old => ew_add old v
                      | None => v
                      end) items
  end.

Lemma lookup_foldl_merge items m s :
  foldl merge_item m items !! s =
    sum_items (m !! s) (filter (λ sv, sv.1 = s) items).*2.
Proof.
  revert m. induction items as [|[s' v] items IH]; intros m; [done|].
  simpl. rewrite IH. unfold merge_item at 1. simpl.
  rewrite filter_cons. simpl. case_decide as Hs.
  - subst s'. by rewrite lookup_insert_eq.
  - by rewrite lookup_insert_ne.
Qed.

End facts.
End MultiViewTensorFacts.

(** ** The properties of the specification *)

Module Properties.
Import Torch TorchFacts SumFacts ReduceFacts RoundTrip.
Import MultiViewTensor MultiViewTensorFacts.

Section add_calls.
Context {R : Type} `{ExactScalar R}.

(** The (shape, value) pairs that one [add] call presents. *)
Definition items_of (term : pyobj R) : list (list nat * tensor R) :=
  match term with
  | PyVar v => [(tshape v, v)]
  | PyDict d => map_to_list d
  | _ => []
  end.

(** The terms that [add] is meant for: a Variable, or a dictionary that
    keeps every tensor under its own shape, as a MultiViewTensor does. *)
Definition term_ok (term : pyobj R) : Prop :=
  match term with
  | PyVar _ => True
  | PyDict d => keyed d
  | _ => False
  end.

(** A sequence of [add] calls; the first one that raises ends it. *)
Fixpoint add_all (terms : list (pyobj R))
    (self : gmap (list nat) (tensor R)) :
    outcome unit * gmap (list nat) (tensor R) :=
  match terms with
  | [] => (Ok (), self)
  | term :: terms =>
      match MultiViewTensor.add term self with
      | (Ok _, self') => add_all terms self'
      | (Raise e, self') => (Raise e, self')
      end
  end.

Lemma items_of_keyed term : term_ok term → Forall keyed_item (items_of term).
Proof.
  destruct term as [|x|v|d]; simpl; try done.
  - intros _. by repeat constructor.
  - intros Hd. apply Forall_forall. intros [s v] Hsv%elem_of_map_to_list.
    by apply Hd.
Qed.

Lemma add_keyed term m :
  keyed m → term_ok term →
  MultiViewTensor.add term m = (Ok (), foldl merge_item m (items_of term)).
Proof.
  intros Hm Ht. destruct term as [|x|v|d]; simpl in *; try done.
  - by apply add_item_keyed.
  - by apply add_items_keyed, (items_of_keyed (PyDict d)).
Qed.

Lemma add_all_keyed terms m :
  keyed m → Forall term_ok terms →
  add_all terms m = (Ok (), foldl merge_item m (terms ≫= items_of)).
Proof.
  intros Hm Hterms. revert m Hm.
  induction Hterms as [|term terms Ht _ IH]; intros m Hm; [done|].
  cbn [add_all]. rewrite add_keyed by done. rewrite bind_cons, foldl_app.
  apply IH. by apply keyed_foldl_merge, items_of_keyed.
Qed.

Lemma foldl_merge_permutation (l1 l2 : list (list nat * tensor R)) m :
  l1 ≡ₚ l2 → Forall keyed_item l1 → keyed m →
  foldl merge_item m l1 = foldl merge_item m l2.
Proof.
  intros Hp. revert m.
  induction Hp as [|x l1 l2 _ IH|x y l|l1 l2 l3 Hp1 IH1 _ IH2];
    intros m Hl Hm; simpl.
  - done.
  - apply Forall_cons in Hl as [Hx Hl]. apply IH; [done|].
    by apply keyed_merge_item.
  - apply Forall_cons in Hl as [Hy [Hx Hl]%Forall_cons].
    by rewrite merge_item_swap.
  - rewrite IH1 by done. apply IH2; [|done]. by rewrite <- Hp1.
Qed.

End add_calls.

(** C3, amended: the wrappers [torch_exp], [torch_sum], [torch_data_sum]
    and [torch_backward] accept a plain number, for which [exp] and [sum]
    are ordinary arithmetic and [backward] does nothing; Python's [+] on
    numbers is ordinary addition, so that the TreeSum operations work on
    numbers; the constructor of MultiViewTensor stores nothing for a
    number; [MultiViewTensor.add] takes a Variable or a dictionary and
    raises on a number, leaving the receiver as it is. *)
Theorem number_fallback {R : Type} `{Scalar R} (x y : R)
    (calls : list (tensor R)) (self : gmap (list nat) (tensor R))
    (key : list nat) :
  torch_exp (PyNum x) = Ok (PyNum (rexp x)) ∧
  torch_sum (PyNum x) = Ok (PyNum x) ∧
  torch_data_sum (PyNum x) = Ok (PyNum x) ∧
  torch_backward (PyNum x) calls = calls ∧
  py_add (PyNum x) (PyNum y) = Ok (PyNum (radd x y)) ∧
  (let s := TreeSum.run radd rexp
              [TreeSum.Add key x; TreeSum.Add key y] TreeSum.init in
   (TreeSum.get_upstream radd key s).1 = Some (radd x y) ∧
   ∃ r, (TreeSum.exp radd rexp s).1 = Ok r ∧
        TreeSum._upstream r !! key = Some (Some (rexp (radd x y)))) ∧
  MultiViewTensor.init (PyNum x) = ∅ ∧
  MultiViewTensor.add (PyNum x) self = (Raise AttributeError, self).
Proof.
  split_and!; try done.
  assert (TreeSum.instance radd rexp
            [TreeSum.Add key x; TreeSum.Add key y]
            (TreeSum.run radd rexp [TreeSum.Add key x; TreeSum.Add key y]
               TreeSum.init)) as Hi by apply TreeSum.instance_run.
  assert (TreeSum._terms
            (TreeSum.run radd rexp [TreeSum.Add key x; TreeSum.Add key y]
               TreeSum.init) = {[ key := radd x y ]}) as Ht.
  { unfold TreeSum.run. simpl. unfold TreeSum.add at 2. simpl.
    rewrite lookup_empty. unfold TreeSum.add. simpl.
    rewrite lookup_insert_eq. simpl. by rewrite insert_insert_eq. }
  destruct (TreeSum.run_sound radd rexp
              [TreeSum.Add key x; TreeSum.Add key y]) as (_ & Hco & _);
    [by repeat constructor|].
  pose proof (TreeSum.coherent_up radd _ key Hco) as Hup.
  cbv zeta.
  assert ((TreeSum.get_upstream radd key
             (TreeSum.run radd rexp [TreeSum.Add key x; TreeSum.Add key y]
                TreeSum.init)).1 = Some (radd x y)) as Hval.
  { rewrite Hup, Ht. clear.
    induction key as [|a key IH] using rev_ind.
    - rewrite TreeSum.upstream_sum_root. by rewrite lookup_singleton_eq.
    - rewrite TreeSum.upstream_sum_snoc, lookup_singleton_eq.
      rewrite TreeSum.upstream_sum_absent; [done|].
      intros p [q Hq]. apply lookup_singleton_ne. intros <-.
      rewrite <- (app_nil_r key) in Hq at 1. rewrite <- app_assoc in Hq.
      apply app_inv_head in Hq. by destruct q. }
  split; [done|].
  destruct (TreeSum.exp_ok radd rexp _
              (proj2 (TreeSum.instance_inv radd rexp _ _ Hi)))
    as (r & Hr & _ & _ & Hk).
  exists r. split; [done|].
  rewrite (proj1 (Hk key)), Ht, lookup_singleton_eq, Hval. done.
Qed.

(** [MultiViewTensor.add] does not accept a plain number. *)
Lemma add_number_raises :
  MultiViewTensor.add (PyNum 3%Z) (MultiViewTensor.init PyNone) =
    (Raise AttributeError, ∅).
Proof. reflexivity. Qed.

(** C5: two sequences of [add] calls that present the same multiset of
    (key, value) pairs to a TreeSum, or of (shape, value) pairs to a
    MultiViewTensor, leave the same state, hence the same upstream sums,
    per-shape sums and contracted sums, when the addition of values is
    commutative and associative. *)
Theorem add_order_independence {L : Type} `{Countable L} {V : Type}
    (vadd : V → V → V) {R : Type} `{ExactScalar R} :
  (∀ x y, vadd x y = vadd y x) →
  (∀ x y z, vadd x (vadd y z) = vadd (vadd x y) z) →
  (∀ (l1 l2 : list (list L * V)) (s : TreeSum.t), l1 ≡ₚ l2 →
     TreeSum.add_all vadd l1 s = TreeSum.add_all vadd l2 s ∧
     ∀ key,
       (TreeSum.get_upstream vadd key (TreeSum.add_all vadd l1 s)).1 =
       (TreeSum.get_upstream vadd key (TreeSum.add_all vadd l2 s)).1) ∧
  (∀ (l1 l2 : list (pyobj R)) (self : gmap (list nat) (tensor R)),
     l1 ≫= items_of ≡ₚ l2 ≫= items_of →
     Forall term_ok l1 → Forall term_ok l2 → keyed self →
     (add_all l1 self).1 = Ok () ∧
     add_all l1 self = add_all l2 self ∧
     (∀ shape, (add_all l1 self).2 !! shape = (add_all l2 self).2 !! shape) ∧
     (∀ shape, contract (add_all l1 self).2 shape =
               contract (add_all l2 self).2 shape) ∧
     (∀ target, contract_as (add_all l1 self).2 target =
                contract_as (add_all l2 self).2 target)).
Proof.
  intros Hcomm Hassoc. split.
  - intros l1 l2 s Hp.
    assert (TreeSum.add_all vadd l1 s = TreeSum.add_all vadd l2 s) as ->
      by (by apply TreeSum.add_all_permutation).
    done.
  - intros l1 l2 self Hp Hok1 Hok2 Hself.
    assert (add_all l1 self = add_all l2 self) as Heq.
    { rewrite !add_all_keyed by done. f_equal.
      apply foldl_merge_permutation; [done| |done].
      apply Forall_forall. intros sv (term & Hsv & Hterm)%list_elem_of_bind.
      rewrite Forall_forall in Hok1.
      pose proof (items_of_keyed term (Hok1 _ Hterm)) as Hk.
      rewrite Forall_forall in Hk. by apply Hk. }
    split; [by rewrite add_all_keyed|]. by rewrite Heq.
Qed.

(** C6: the reduction of a broadcast.  A tensor [t] expanded to a larger
    shape and reduced to the shape of [t], written with any number of
    axes of size 1 in front, is [t] with every element taken as many
    times as the broadcast repeats it. *)
Theorem broadcast_reduction_round_trip {R : Type} `{ExactScalar R}
    (t x : tensor R) (target : list nat) (pad : nat) :
  wf t →
  larger (replicate pad 1 ++ tshape t) target →
  expand t target = Ok x →
  let shape := replicate pad 1 ++ tshape t in
  let scaled :=
    Tensor shape (nsmul (numel target / numel (tshape t)) <$> tdata t) in
  reduce_to_shape x shape = Ok scaled ∧
  ∀ y, tshape y = shape → reduce_to_target x y = Ok scaled.
Proof.
  intros Hwf Hl Hx shape scaled.
  assert (reduce_to_shape x shape = Ok scaled) as Hr
    by (by apply reduce_to_shape_expand).
  split; [done|]. intros y Hy. by rewrite reduce_to_target_shape, Hy.
Qed.

(** The scalar 3 expanded to shape (4,5) and reduced to shape (1,1). *)
Lemma broadcast_reduction_round_trip_witness :
  ∃ x, expand (Tensor [] [3%Z]) [4; 5] = Ok x ∧
       reduce_to_shape x [1; 1] = Ok (Tensor [1; 1] [60%Z]).
Proof.
  eexists. split; [reflexivity|].
  refine (proj1 (broadcast_reduction_round_trip (Tensor [] [3%Z]) _ [4; 5] 2
                   _ _ eq_refl)).
  - reflexivity.
  - split; [simpl; lia|]. simpl. repeat constructor.
Defined.

(** C7: [contract] and [contract_as] of an empty MultiViewTensor return
    the number 0, whatever the target; [MultiViewTensor()] is empty, and
    so is one constructed from a value that is not a Variable. *)
Theorem empty_contraction {R : Type} `{Scalar R} (shape : list nat)
    (target : tensor R) (x : R) (d : gmap (list nat) (tensor R)) :
  contract (MultiViewTensor.init PyNone) shape = Ok (PyNum rzero) ∧
  contract_as (MultiViewTensor.init PyNone) target = Ok (PyNum rzero) ∧
  MultiViewTensor.init (R:=R) PyNone = ∅ ∧
  MultiViewTensor.init (PyNum x) = ∅ ∧
  MultiViewTensor.init (PyDict d) = ∅.
Proof.
  split_and!; reflexivity.
Qed.

Section group_reduction.
Context {R : Type} `{Scalar R}.

Lemma sum_leftmost_all_but_loop_keyed (dim : Z)
    (items : list (list nat * tensor R)) (result : gmap (list nat) (tensor R)) :
  keyed result →
  sum_leftmost_all_but_loop dim items result =
    Ok (foldl merge_item result
          ((λ sv, let x := sum_leftmost_all_but_term dim sv.2 in (tshape x, x))
             <$> items)).
Proof.
  revert result. induction items as [|[s term] items IH]; intros result Hr;
    [done|].
  cbn [sum_leftmost_all_but_loop MultiViewTensor.add fmap list_fmap].
  rewrite add_item_keyed by done. apply IH. by apply keyed_merge_item.
Qed.

Lemma filter_shape_snd (l : list (tensor R)) shape :
  (filter (λ sv : list nat * tensor R, sv.1 = shape)
     ((λ x, (tshape x, x)) <$> l)).*2 =
  filter (λ v, tshape v = shape) l.
Proof.
  induction l as [|x l IH]; [done|]. rewrite fmap_cons, !filter_cons.
  cbn [fst]. case_decide; [|done]. rewrite fmap_cons. cbn [snd]. by f_equal.
Qed.

End group_reduction.

(** C8: for [dim >= 0] the group reduction returns a new accumulator,
    built from the stored tensors alone, into which each stored tensor
    is added after being summed to a single scalar-like value when
    [dim == 0], kept unchanged when [dim] exceeds its rank, and summed
    over its leftmost [rank - dim] axes otherwise; the entry for a shape
    is the sum of the reduced tensors of that shape. *)
Theorem sum_leftmost_all_but_spec {R : Type} `{Scalar R}
    (self : gmap (list nat) (tensor R)) (dim : Z) :
  (0 ≤ dim)%Z →
  let reduced :=
    (λ sv, sum_leftmost_all_but_term dim sv.2) <$> map_to_list self in
  ∃ result,
    sum_leftmost_all_but self dim = Ok result ∧
    (∀ shape,
       result !! shape =
         sum_items None (filter (λ v, tshape v = shape) reduced)) ∧
    ∀ term : tensor R,
      let rank := Torch.dim term in
      (dim = 0%Z →
         sum_leftmost_all_but_term dim term =
           Tensor [] [total (tdata term)]) ∧
      ((Z.of_nat rank < dim)%Z →
         sum_leftmost_all_but_term dim term = term) ∧
      ((0 < dim ≤ Z.of_nat rank)%Z →
         sum_leftmost_all_but_term dim term =
           tabulate (drop (rank - Z.to_nat dim) (tshape term))
             (λ idx, total ((λ lead, item term (lead ++ idx)) <$>
                indices (take (rank - Z.to_nat dim) (tshape term))))).
Proof.
  intros Hdim reduced. unfold sum_leftmost_all_but.
  destruct (decide _) as [_|]; [|done].
  rewrite sum_leftmost_all_but_loop_keyed by apply keyed_empty.
  eexists. split; [done|]. split.
  - intros shape. rewrite lookup_foldl_merge.
    change (MultiViewTensor.init PyNone !! shape) with
      ((∅ : gmap (list nat) (tensor R)) !! shape).
    rewrite lookup_empty. f_equal. unfold reduced.
    rewrite <- filter_shape_snd. by rewrite <- list_fmap_compose.
  - intros term. unfold sum_leftmost_all_but_term, Torch.dim. split_and!.
    + intros ->. done.
    + intros Hlt. destruct (decide _) as [|_]; [lia|].
      destruct (decide _) as [_|]; [done|lia].
    + intros Hle. destruct (decide _) as [|_]; [lia|].
      destruct (decide _) as [|_]; [lia|].
      unfold sum_leftmost. destruct (decide _) as [_|]; [|lia].
      by replace (Z.to_nat (Z.of_nat (length (tshape term)) + - dim))
        with (length (tshape term) - Z.to_nat dim) by lia.
Qed.

Lemma sum_leftmost_all_but_spec_witness :
  ∃ result,
    sum_leftmost_all_but
      (<[[2; 2] := Tensor [2; 2] [1; 2; 3; 4]%Z]>
         {[ [2] := Tensor [2] [10; 20]%Z ]}) 1 = Ok result ∧
    result !! [2] = Some (Tensor [2] [14; 26]%Z).
Proof.
  destruct (sum_leftmost_all_but_spec
              (<[[2; 2] := Tensor [2; 2] [1; 2; 3; 4]%Z]>
                 {[ [2] := Tensor [2] [10; 20]%Z ]}) 1)
    as (result & Hr & Hs & _); [lia|].
  exists result. split; [exact Hr|]. rewrite Hs. reflexivity.
Defined.

Definition example_dict : gmap (list nat) (tensor Z) :=
  <[[2] := Tensor [2] [10; 20]%Z]> (<[[] := Tensor [] [5%Z]]> ∅).

Lemma add_order_independence_witness :
  TreeSum.add_all Z.add [([0], 3%Z); ([], 2%Z); ([0], 4%Z)] TreeSum.init =
  TreeSum.add_all Z.add [([], 2%Z); ([0], 4%Z); ([0], 3%Z)] TreeSum.init ∧
  add_all [PyDict example_dict; PyVar (Tensor [2] [1; 2]%Z)] ∅ =
  add_all [PyVar (Tensor [2] [1; 2]%Z); PyDict example_dict] ∅.
Proof.
  assert (keyed example_dict) as Hd
    by (repeat apply keyed_insert; done || apply keyed_empty).
  destruct (add_order_independence (L:=nat) (R:=Z) Z.add
              Z.add_comm Z.add_assoc) as [Htree Hmvt].
  split.
  - apply Htree.
    apply (Permutation_cons_append [([], 2%Z); ([0], 4%Z)] ([0], 3%Z)).
  - apply Hmvt.
    + rewrite bind_cons, bind_singleton, bind_cons, bind_singleton.
      apply Permutation_app_comm.
    + repeat constructor. exact Hd.
    + repeat constructor. exact Hd.
    + apply keyed_empty.
Defined.

End Properties.

(** ** Further properties of TreeSum *)

Module TreeSumLaws.
Import TreeSum.
Section laws.
Context {L : Type} `{Countable L} {V : Type}.
Variable vadd : V → V → V.
Variable torch_exp : V → V.

Local Abbreviation tree := (t (L:=L) (V:=V)).
Local Notation "'up' s key" := (get_upstream vadd key s).1
  (at level 10, s at level 9, key at level 9, only parsing).

Ltac get_upstream_cases key s :=
  destruct (_upstream s !! key) as [?c|] eqn:?Hc;
  [ rewrite (get_upstream_hit vadd key s _ ltac:(eassumption))
  | first [ rewrite (get_upstream_root vadd s) by assumption
          | rewrite (get_upstream_snoc vadd _ _ s) by assumption ] ];
  simpl.

(** The value that [get_upstream] returns on any state: the running sum
    of the local terms along the path from the root, replaced by the
    cached value wherever the path meets a cached key. *)
Definition path_value (s : tree) (key : list L) : option V :=
  foldl (λ acc p,
           match _upstream s !! p with
           | Some cached => cached
           | None => opt_add vadd acc (_terms s !! p)
           end) None (prefixes key).

(** The values added under one key, summed in the order of the calls. *)
Fixpoint sum_values (acc : option V) (values : list V) : option V :=
  match values with
  | [] => acc
  | v :: values =>
      sum_values (Some match acc with
                       | Some old => vadd old v
                       | None => v
                       end) values
  end.

Lemma agrees_trans (s1 s2 s3 : tree) :
  agrees vadd s1 s2 → agrees vadd s2 s3 → agrees vadd s1 s3.
Proof.
  intros Hag (Ht' & Hsub' & Hent'). pose proof Hag as (Ht & Hsub & Hent).
  split_and!.
  - congruence.
  - by etrans.
  - intros p c Hp. rewrite <- (agrees_up vadd s1 s2) by done.
    by apply Hent'.
Qed.

Lemma step_agrees (o : op) (s : tree) :
  freezing o = true → agrees vadd s (step vadd torch_exp o s).
Proof.
  destruct o as [k v|k| | |k|]; simpl; try done; intros _.
  - apply agrees_get_upstream, agrees_refl.
  - apply freeze_agrees.
  - apply freeze_agrees.
Qed.

Lemma run_agrees (ops : list (op (L:=L) (V:=V))) (s : tree) :
  Forall (λ o, freezing o = true) ops →
  agrees vadd s (run vadd torch_exp ops s).
Proof.
  induction ops as [|o ops IH] using rev_ind; intros Hops.
  - apply agrees_refl.
  - apply Forall_app in Hops as [Hops Ho]. rewrite run_snoc.
    eapply agrees_trans; [by apply IH|]. apply step_agrees.
    by inversion Ho.
Qed.

Lemma freeze_freeze (s : tree) : _freeze vadd (_freeze vadd s) = _freeze vadd s.
Proof.
  apply freeze_all_cached; [done|]. intros k Hk.
  rewrite freeze_terms in Hk. rewrite freeze_cached by done. eauto.
Qed.

Lemma freeze_loop_dom (keys : list (list L)) (s : tree) p :
  is_Some (_upstream (foldl (λ s key, (get_upstream vadd key s).2) s keys)
             !! p) →
  is_Some (_upstream s !! p) ∨ ∃ k, k ∈ keys ∧ p `prefix_of` k.
Proof.
  revert s. induction keys as [|k keys IH]; intros s; simpl; [eauto|].
  intros [Hp|(k' & Hk' & Hp)]%IH.
  - apply get_upstream_dom in Hp as [?|?]; [by left|].
    right. exists k. split; [by left|done].
  - right. exists k'. split; [by right|done].
Qed.

Lemma step_frozen_terms (o : op) (s : tree) :
  _frozen s = true →
  _terms (step vadd torch_exp o s) =
    match o with
    | Prune key => delete key (_terms s)
    | _ => _terms s
    end.
Proof.
  intros Hf. destruct o as [k v|k| | |k|]; simpl; try done.
  - by rewrite add_frozen.
  - apply get_upstream_terms.
  - apply freeze_terms.
  - apply freeze_terms.
  - unfold prune. by rewrite Hf.
Qed.

Lemma freeze_no_terms (s : tree) :
  _terms s = ∅ → _frozen s = true → _freeze vadd s = s.
Proof.
  intros Ht Hf. apply freeze_all_cached; [done|]. intros k.
  rewrite Ht, lookup_empty. by intros [??].
Qed.

Lemma add_all_unfrozen (l : list (list L * V)) (s : tree) :
  _frozen s = false →
  _frozen (add_all vadd l s) = false ∧
  _upstream (add_all vadd l s) = _upstream s ∧
  ∀ key, _terms (add_all vadd l s) !! key =
    sum_values (_terms s !! key) (filter (λ kv, kv.1 = key) l).*2.
Proof.
  revert s. induction l as [|[k v] l IH]; intros s Hf; [done|].
  unfold add_all in *. cbn [foldl fst snd].
  destruct (add_unfrozen vadd s k v Hf) as (_ & Hf' & Hu & Ht).
  destruct (IH _ Hf') as (IH1 & IH2 & IH3).
  split_and!; [done|congruence|]. intros key.
  rewrite IH3, Ht, filter_cons. cbn [fst]. case_decide as Hk.
  - subst k. by rewrite lookup_insert_eq.
  - by rewrite lookup_insert_ne.
Qed.

(** X1: [get_upstream] memoizes.  A second call with the same key
    returns the same value and changes nothing. *)
Theorem get_upstream_memoized (key : list L) (s : tree) :
  get_upstream vadd key (get_upstream vadd key s).2 =
    (up s key, (get_upstream vadd key s).2).
Proof. apply get_upstream_hit, get_upstream_cached. Qed.

(** X2: [get_upstream] never changes the local terms, keeps every
    cached entry, and the entries it adds are for the key and prefixes
    of the key only. *)
Theorem get_upstream_footprint (key : list L) (s : tree) :
  let s' := (get_upstream vadd key s).2 in
  _terms s' = _terms s ∧
  (∀ p c, _upstream s !! p = Some c → _upstream s' !! p = Some c) ∧
  _upstream s' !! key = Some (up s key) ∧
  ∀ p, is_Some (_upstream s' !! p) →
       is_Some (_upstream s !! p) ∨ p `prefix_of` key.
Proof.
  cbv zeta. split_and!.
  - apply get_upstream_terms.
  - intros p c Hp. eapply lookup_weaken; [done|]. apply get_upstream_mono.
  - apply get_upstream_cached.
  - apply get_upstream_dom.
Qed.

(** X3: on any state, the value that [get_upstream] returns is the
    running sum of the local terms from the root down to the key,
    restarted from the cached value at every cached key on the way. *)
Theorem get_upstream_path_value (key : list L) (s : tree) :
  up s key = path_value s key.
Proof.
  unfold path_value.
  induction key as [|x k IH] using rev_ind.
  - simpl. get_upstream_cases (@nil L) s; done.
  - rewrite prefixes_snoc, foldl_snoc, <- IH.
    get_upstream_cases (k ++ [x]) s; done.
Qed.

(** X4: queries do not interfere.  After any calls of [get_upstream],
    [items] and [exp], [get_upstream] returns for every key what it
    would have returned before them, and the local terms are the same. *)
Theorem queries_do_not_interfere (ops : list (op (L:=L) (V:=V)))
    (s : tree) (key : list L) :
  Forall (λ o, freezing o = true) ops →
  up (run vadd torch_exp ops s) key = up s key ∧
  _terms (run vadd torch_exp ops s) = _terms s.
Proof.
  intros Hops. pose proof (run_agrees ops s Hops) as Hag.
  split; [by apply agrees_up|]. apply Hag.
Qed.

(** X5: [items()] is idempotent: a second call returns the same mapping
    and leaves the instance as the first call left it. *)
Theorem items_idempotent (s : tree) :
  items vadd (items vadd s).2 = items vadd s.
Proof. unfold items. cbv zeta. cbn [snd]. by rewrite freeze_freeze. Qed.

(** X6: on any state, the mapping returned by [items()] contains the
    entries cached before, has for every key with a local term the value
    that [get_upstream] returns for it, and each of its entries is the
    value that [get_upstream] returns for its key. *)
Theorem items_values (s : tree) :
  (∀ p c, _upstream s !! p = Some c → (items vadd s).1 !! p = Some c) ∧
  (∀ key, is_Some (_terms s !! key) →
     (items vadd s).1 !! key = Some (up s key)) ∧
  (∀ p c, (items vadd s).1 !! p = Some c → up s p = c) ∧
  _terms (items vadd s).2 = _terms s ∧
  _frozen (items vadd s).2 = true.
Proof.
  destruct (freeze_agrees vadd s) as (Ht & Hsub & Hent).
  unfold items. cbv zeta. cbn [fst snd]. split_and!; [|..|done|done].
  - intros p c Hp. by eapply lookup_weaken.
  - intros key Hk. by apply freeze_cached.
  - done.
Qed.

(** X7: on an instance that was never queried (its cache is empty),
    [items()] has an entry for exactly the prefixes of the keys with a
    local term. *)
Theorem items_keys_exact (s : tree) (p : list L) :
  _upstream s = ∅ →
  is_Some ((items vadd s).1 !! p) ↔
  ∃ key, is_Some (_terms s !! key) ∧ p `prefix_of` key.
Proof.
  intros Hu. unfold items. cbv zeta. cbn [fst]. split.
  - intros Hp. unfold _freeze in Hp. cbn [_upstream] in Hp.
    apply freeze_loop_dom in Hp as [Hp|(k & Hk & Hp)].
    + rewrite Hu, lookup_empty in Hp. by destruct Hp.
    + exists k. split; [|done].
      apply list_elem_of_fmap in Hk as ([k' v] & -> & Hin).
      apply elem_of_map_to_list in Hin. eauto.
  - intros (key & Hkey & Hp).
    apply (closed_prefix (_freeze vadd s) p key); [|done|].
    + apply closed_freeze. intros k x. rewrite Hu, lookup_empty.
      by intros [??].
    + rewrite freeze_cached by done. eauto.
Qed.

(** X8: [prune] needs a frozen instance.  On an instance that no call of
    [get_upstream], [items] or [exp] has led to it raises and changes
    nothing; once such a call has been made it succeeds, removes the key
    from the local terms and from the cache, and keeps every other
    entry. *)
Theorem prune_lifecycle (h : list op) (s : tree) (key : list L) :
  instance vadd torch_exp h s →
  (Forall (λ o, freezing o = false) h →
     prune key s = (Raise AssertionError, s)) ∧
  (Exists (λ o, freezing o = true) h →
     (prune key s).1 = Ok () ∧
     _frozen (prune key s).2 = true ∧
     ∀ k, _terms (prune key s).2 !! k =
            (if decide (k = key) then None else _terms s !! k) ∧
          _upstream (prune key s).2 !! k =
            (if decide (k = key) then None else _upstream s !! k)).
Proof.
  intros [H1 H2]%instance_frozen. split.
  - intros Hh. unfold prune. by rewrite H1.
  - intros Hh. unfold prune. rewrite H2 by done. cbn.
    split_and!; [done..|]. intros k. case_decide as Hk.
    + subst k. by rewrite !lookup_delete_eq.
    + by rewrite !lookup_delete_ne.
Qed.

(** X9: once an instance is frozen it stays frozen, and no call adds or
    changes a local term: after any calls, every local term is one that
    was there at the time of freezing, with the same value; without
    [prune] the local terms are the same. *)
Theorem frozen_terms_fixed (ops : list (op (L:=L) (V:=V))) (s : tree) :
  _frozen s = true →
  _frozen (run vadd torch_exp ops s) = true ∧
  _terms (run vadd torch_exp ops s) ⊆ _terms s ∧
  (Forall (λ o, pruning o = false) ops →
     _terms (run vadd torch_exp ops s) = _terms s).
Proof.
  intros Hf. induction ops as [|o ops (IHf & IHt & IHe)] using rev_ind;
    [done|].
  rewrite run_snoc, step_frozen_terms by done. split_and!.
  - by apply step_frozen.
  - destruct o; try done. etrans; [apply delete_subseteq|done].
  - intros [Hops Ho]%Forall_app. apply Forall_cons in Ho as [Ho _].
    destruct o; try done; by apply IHe.
Qed.

(** X10: the instance that [exp()] returns is a fixed table.  [items()]
    returns its mapping and changes nothing, [get_upstream] of a key that
    had a local term returns the exponential of what [get_upstream]
    returned on the receiver, and [add] raises. *)
Theorem exp_result_table (s r : tree) :
  reachable vadd torch_exp s →
  (exp vadd torch_exp s).1 = Ok r →
  items vadd r = (_upstream r, r) ∧
  (∀ key, is_Some (_terms s !! key) →
     ∃ v, up s key = Some v ∧
          get_upstream vadd key r = (Some (torch_exp v), r)) ∧
  ∀ key value, add vadd key value r = (Raise AssertionError, r).
Proof.
  intros [h Hi] Hr.
  destruct (exp_ok vadd torch_exp s) as (r' & Hr' & Ht & Hf & Hk);
    [by eapply instance_inv|].
  rewrite Hr in Hr'. injection Hr' as <-. split_and!.
  - unfold items. cbv zeta. by rewrite freeze_no_terms.
  - intros key Hkey. destruct (Hk key) as [Hu [v Hv]%(λ f, f Hkey)].
    exists v. split; [done|]. apply get_upstream_hit.
    destruct Hkey as [w Hw]. by rewrite Hu, Hw, Hv.
  - intros key value. by apply add_frozen.
Qed.

(** X11: [exp()] of an instance without local terms, such as the one
    that [exp()] returns, is an empty table: exponentiating twice loses
    every entry. *)
Theorem exp_exp_empty (s r : tree) :
  reachable vadd torch_exp s →
  (exp vadd torch_exp s).1 = Ok r →
  (exp vadd torch_exp r).1 =
    Ok {| _terms := ∅; _upstream := ∅; _frozen := true |} ∧
  (exp vadd torch_exp r).2 = r.
Proof.
  intros [h Hi] Hr.
  destruct (exp_ok vadd torch_exp s) as (r' & Hr' & Ht & Hf & _);
    [by eapply instance_inv|].
  rewrite Hr in Hr'. injection Hr' as <-.
  unfold exp. cbv zeta. cbn [fst snd]. rewrite freeze_no_terms by done.
  by rewrite Ht, map_to_list_empty.
Qed.

(** X12: on an instance that is not frozen, a sequence of [add] calls
    succeeds and leaves under every key the sum, in the order of the
    calls, of the former local term and the values added under that key;
    the instance stays unfrozen and its cache is untouched. *)
Theorem add_all_terms (l : list (list L * V)) (s : tree) (key : list L) :
  _frozen s = false →
  _terms (add_all vadd l s) !! key =
    sum_values (_terms s !! key) (filter (λ kv, kv.1 = key) l).*2 ∧
  _frozen (add_all vadd l s) = false ∧
  _upstream (add_all vadd l s) = _upstream s.
Proof.
  intros Hf. destruct (add_all_unfrozen l s Hf) as (? & ? & Ht).
  by split_and!.
Qed.

End laws.

Section examples.
Local Open Scope Z_scope.

Lemma queries_do_not_interfere_witness :
  let s := run Z.add exp2 example_adds init in
  (get_upstream Z.add [0%nat; 1%nat]
     (run Z.add exp2 [GetUpstream [7%nat]; Items] s)).1 =
  (get_upstream Z.add [0%nat; 1%nat] s).1.
Proof.
  refine (proj1 (queries_do_not_interfere Z.add exp2
                   [GetUpstream [7%nat]; Items]
                   (run Z.add exp2 example_adds init) [0%nat; 1%nat] _)).
  repeat constructor.
Defined.

Lemma items_keys_exact_witness :
  let s := run Z.add exp2 [Add [0%nat; 1%nat] 5] init in
  is_Some ((items Z.add s).1 !! [0%nat]).
Proof.
  apply (items_keys_exact Z.add
           (run Z.add exp2 [Add [0%nat; 1%nat] 5] init) [0%nat] eq_refl).
  exists [0%nat; 1%nat]. split; [by eexists|]. by exists [1%nat].
Defined.

Lemma prune_lifecycle_witness :
  prune [0%nat] (run Z.add exp2 example_adds init) =
    (Raise AssertionError, run Z.add exp2 example_adds init) ∧
  (prune [0%nat] (run Z.add exp2 (example_adds ++ [Items]) init)).1 = Ok ().
Proof.
  split.
  - apply (prune_lifecycle Z.add exp2 example_adds _ [0%nat]
             (instance_run Z.add exp2 example_adds)).
    repeat constructor.
  - apply (prune_lifecycle Z.add exp2 (example_adds ++ [Items]) _ [0%nat]
             (instance_run Z.add exp2 _)).
    apply Exists_app. right. by left.
Defined.

Lemma frozen_terms_fixed_witness :
  _frozen frozen_by_query = true ∧
  _terms (run Z.add exp2 [Add [9%nat] 1; Items; Prune [0%nat]]
            frozen_by_query) ⊆ _terms frozen_by_query.
Proof.
  assert (_frozen frozen_by_query = true) as Hf by reflexivity.
  split; [exact Hf|].
  apply (frozen_terms_fixed Z.add exp2
           [Add [9%nat] 1; Items; Prune [0%nat]] frozen_by_query Hf).
Defined.

Lemma exp_result_table_witness :
  ∃ r, (exp Z.add exp2 (run Z.add exp2 example_adds init)).1 = Ok r ∧
       get_upstream Z.add [0%nat] r = (Some 32, r).
Proof.
  assert (∃ r, (exp Z.add exp2 (run Z.add exp2 example_adds init)).1 = Ok r)
    as [r Hr] by (eexists; vm_compute; reflexivity).
  exists r. split; [exact Hr|].
  destruct (exp_result_table Z.add exp2
              (run Z.add exp2 example_adds init) r
              (ex_intro _ example_adds (instance_run Z.add exp2 _)) Hr)
    as (_ & Hk & _).
  destruct (Hk [0%nat]) as (v & Hv & Hg); [by eexists|].
  vm_compute in Hv. injection Hv as <-. exact Hg.
Defined.

Lemma exp_exp_empty_witness :
  ∃ r, (exp Z.add exp2 (run Z.add exp2 example_adds init)).1 = Ok r ∧
       (exp Z.add exp2 r).1 =
         Ok {| _terms := ∅; _upstream := ∅; _frozen := true |}.
Proof.
  assert (∃ r, (exp Z.add exp2 (run Z.add exp2 example_adds init)).1 = Ok r)
    as [r Hr] by (eexists; vm_compute; reflexivity).
  exists r. split; [exact Hr|].
  apply (exp_exp_empty Z.add exp2 (run Z.add exp2 example_adds init) r
           (ex_intro _ example_adds (instance_run Z.add exp2 _)) Hr).
Defined.

Lemma add_all_terms_witness :
  _terms (add_all Z.add [([0%nat], 3); ([], 2); ([0%nat], 4)] init)
    !! [0%nat] = Some 7.
Proof.
  refine (proj1 (add_all_terms Z.add
                   [([0%nat], 3); ([], 2); ([0%nat], 4)] init [0%nat] _)).
  reflexivity.
Defined.

End examples.
End TreeSumLaws.

(** ** Further properties of the reduction helpers *)

Module ReductionLaws.
Import Torch TorchFacts SumFacts ReduceFacts RoundTrip.
Section laws.
Context {R : Type} `{Scalar R}.

(** The size that the [for] loop leaves on an axis of size [a] that
    faces the size [b] of the target. *)
Definition clip (a b : nat) : nat := if decide (b < a) then 1 else a.

(** The shape that the two loops leave: the leading axes beyond the
    rank of the target are gone, and of the others, aligned with the
    target at the end, those larger than the target's have size 1. *)
Definition reduced_shape (source shape : list nat) : list nat :=
  let rest := drop (length source - length shape) source in
  zip_with clip rest (drop (length shape - length rest) shape).

Lemma tuple_get_last (pre suf : list nat) (n : nat) :
  tuple_get (pre ++ n :: suf) (- Z.of_nat (S (length suf))) = Ok n.
Proof.
  apply tuple_get_neg.
  - rewrite length_app. simpl. lia.
  - rewrite length_app. simpl.
    replace (length pre + S (length suf) - S (length suf)) with (length pre)
      by lia.
    by apply list_lookup_middle.
Qed.

Lemma sum_dim_0_shape (t : tensor R) :
  0 < dim t →
  ∃ t', sum_dim t 0 false = Ok t' ∧ tshape t' = drop 1 (tshape t).
Proof.
  intros Hd. unfold sum_dim. rewrite axis_0 by done. eexists.
  split; [done|]. simpl. by destruct (tshape t).
Qed.

Lemma sum_dim_keep_shape (t : tensor R) (pre suf : list nat) (n : nat) :
  tshape t = pre ++ n :: suf →
  ∃ t', sum_dim t (- Z.of_nat (S (length suf))) true = Ok t' ∧
        tshape t' = pre ++ 1 :: suf.
Proof.
  intros Hs. unfold sum_dim, dim. rewrite Hs, axis_neg
    by (rewrite length_app; simpl; lia).
  eexists. split; [done|]. simpl. rewrite length_app. simpl.
  replace (length pre + S (length suf) - S (length suf))
    with (length pre + 0) by lia.
  by rewrite insert_app_r.
Qed.

Lemma sum_excess_shape (source : tensor R) (rank : nat) :
  ∃ source', sum_excess source rank = Ok source' ∧
    tshape source' = drop (dim source - rank) (tshape source).
Proof.
  remember (dim source - rank) as n eqn:Hn.
  revert source Hn. induction n as [|n IH]; intros source Hn.
  - exists source. split; [apply sum_excess_done; lia|done].
  - destruct (sum_dim_0_shape source) as (t' & Ht' & Hs'); [lia|].
    destruct (IH t') as (r & Hr & Hsr).
    { unfold dim in *. rewrite Hs', length_drop. lia. }
    exists r. split.
    + by rewrite (sum_excess_step source t') by (done || lia).
    + rewrite Hsr, Hs', drop_drop. f_equal; lia.
Qed.

Lemma reduce_body_shape (shape : list nat) (x : tensor R)
    (Tp S0 Sp Ssuf Ssuf' : list nat) (ta sa : nat) :
  tshape x = Tp ++ ta :: Ssuf → shape = S0 ++ Sp ++ sa :: Ssuf' →
  length Ssuf' = length Ssuf →
  ∃ x', reduce_body shape x (S (length Ssuf)) = Ok x' ∧
        tshape x' = Tp ++ clip ta sa :: Ssuf.
Proof.
  intros Hx Hs Hl. unfold reduce_body, size.
  rewrite Hx, tuple_get_last. cbn [mbind outcome_bind].
  rewrite Hs, app_assoc, <- Hl, tuple_get_last. cbn [mbind outcome_bind].
  unfold clip. destruct (decide (sa < ta)).
  - rewrite Hl. by apply (sum_dim_keep_shape x Tp Ssuf ta).
  - by exists x.
Qed.

Lemma reduce_loop_shape (shape : list nat) (Tpre : list nat) :
  ∀ (x : tensor R) (S0 Spre Ssuf Ssuf' : list nat),
    tshape x = Tpre ++ Ssuf → shape = S0 ++ Spre ++ Ssuf' →
    length Spre = length Tpre → length Ssuf' = length Ssuf →
    ∃ r, for_each (seq (S (length Ssuf)) (length Tpre))
           (reduce_body shape) x = Ok r ∧
         tshape r = zip_with clip Tpre Spre ++ Ssuf.
Proof.
  induction Tpre as [|ta Tp IH] using rev_ind;
    intros x S0 Spre Ssuf Ssuf' Hx Hs Hlp Hls.
  - exists x. split; [done|]. by destruct Spre.
  - destruct Spre as [|sa Sp _] using rev_ind;
      [rewrite length_app in Hlp; simpl in Hlp; lia|].
    rewrite !length_app in Hlp. simpl in Hlp.
    rewrite <- !app_assoc in Hx, Hs. simpl in Hx, Hs.
    destruct (reduce_body_shape shape x Tp S0 Sp Ssuf Ssuf' ta sa)
      as (x' & Hx' & Hsx'); [done..|].
    destruct (IH x' S0 Sp (clip ta sa :: Ssuf) (sa :: Ssuf'))
      as (r & Hr & Hsr); [done|done|lia|simpl; lia|].
    exists r. split.
    + rewrite length_app, Nat.add_1_r. cbn [length seq for_each].
      rewrite Hx'. exact Hr.
    + rewrite Hsr, zip_with_app by lia. by rewrite <- app_assoc.
Qed.

Lemma reduce_to_shape_result (source : tensor R) (shape : list nat) :
  ∃ r, reduce_to_shape source shape = Ok r ∧
       tshape r = reduced_shape (tshape source) shape.
Proof.
  destruct (sum_excess_shape source (length shape)) as (x & Hx & Hsx).
  rewrite reduce_to_shape_body, Hx. cbn [mbind outcome_bind].
  unfold reduced_shape, dim in *. cbv zeta.
  set (rest := drop (length (tshape source) - length shape)
                 (tshape source)) in *.
  assert (length rest ≤ length shape) as Hlen
    by (unfold rest; rewrite length_drop; lia).
  destruct (reduce_loop_shape shape rest x
              (take (length shape - length rest) shape)
              (drop (length shape - length rest) shape) [] [])
    as (r & Hr & Hsr).
  - by rewrite app_nil_r.
  - by rewrite app_nil_r, take_drop.
  - rewrite length_drop. lia.
  - done.
  - exists r. rewrite Hsx. split; [exact Hr|]. by rewrite app_nil_r in Hsr.
Qed.

Lemma length_reduced_shape (source shape : list nat) :
  length (reduced_shape source shape) = length source `min` length shape.
Proof.
  unfold reduced_shape. cbv zeta.
  rewrite length_zip_with, !length_drop. lia.
Qed.

Lemma for_each_fixed {A} (ks : list nat) (body : A → nat → outcome A) (a : A) :
  (∀ k, k ∈ ks → body a k = Ok a) → for_each ks body a = Ok a.
Proof.
  induction ks as [|k ks IH]; intros Hk; [done|]. simpl.
  rewrite Hk by left. cbn [mbind outcome_bind]. apply IH.
  intros ??. apply Hk. by right.
Qed.

Lemma tuple_get_neg_lookup (shape : list nat) (k : nat) :
  1 ≤ k ≤ length shape →
  ∃ n, shape !! (length shape - k) = Some n ∧
       tuple_get shape (- Z.of_nat k) = Ok n.
Proof.
  intros Hk. destruct (lookup_lt_is_Some_2 shape (length shape - k)) as [n Hn];
    [lia|].
  exists n. split; [done|]. by apply tuple_get_neg.
Qed.

Lemma reduce_to_shape_larger (source : tensor R) (shape : list nat) :
  larger (tshape source) shape → reduce_to_shape source shape = Ok source.
Proof.
  intros [Hlen Hle]. rewrite reduce_to_shape_body.
  rewrite sum_excess_done by done. cbn [mbind outcome_bind].
  apply for_each_fixed. intros k Hk%elem_of_seq. unfold dim in *.
  unfold reduce_body, size.
  destruct (tuple_get_neg_lookup (tshape source) k) as (a & Ha & ->); [lia|].
  destruct (tuple_get_neg_lookup shape k) as (b & Hb & ->); [lia|].
  cbn [mbind outcome_bind].
  destruct (decide (b < a)) as [Hlt|]; [|done].
  eapply Forall2_lookup_lr in Hle; [|exact Ha|].
  - exfalso. apply (Nat.lt_irrefl b). eapply Nat.lt_le_trans; done.
  - rewrite lookup_drop, <- Hb. f_equal. lia.
Qed.

Lemma clip_le (a b : nat) : 1 ≤ b → clip a b ≤ b.
Proof. unfold clip. destruct (decide _); lia. Qed.

Lemma reduced_shape_larger (source shape : list nat) :
  Forall (λ n, 1 ≤ n) shape → larger (reduced_shape source shape) shape.
Proof.
  intros Hpos. split; [rewrite length_reduced_shape; lia|].
  rewrite length_reduced_shape. unfold reduced_shape. cbv zeta.
  set (rest := drop (length source - length shape) source).
  assert (length rest = length source `min` length shape) as Hrest
    by (unfold rest; rewrite length_drop; lia).
  rewrite Hrest.
  assert (Forall (λ n, 1 ≤ n)
            (drop (length shape - length source `min` length shape) shape))
    as Hpos' by (by apply Forall_drop).
  assert (length rest =
          length (drop (length shape - length source `min` length shape)
                    shape)) as Hl by (rewrite length_drop; lia).
  revert Hl Hpos'. generalize
    (drop (length shape - length source `min` length shape) shape).
  clear. induction rest as [|a rest IH]; intros [|b l] Hl Hpos; try done.
  apply Forall_cons in Hpos as [Hb Hpos]. simpl. constructor.
  - by apply clip_le.
  - apply IH; [simpl in Hl; lia|done].
Qed.

(** X13: the reduction helpers never raise on tensors, and the shape of
    the result is known from the shapes alone: it has the smaller of the
    two ranks, and aligned at the end, an axis has size 1 where the
    source's size exceeds the target's and the source's size elsewhere. *)
Theorem reduce_total (source target : tensor R) (shape : list nat) :
  (∃ r, reduce_to_shape source shape = Ok r ∧
        tshape r = reduced_shape (tshape source) shape ∧
        dim r = dim source `min` length shape) ∧
  (∃ r, reduce_to_target source target = Ok r ∧
        tshape r = reduced_shape (tshape source) (tshape target) ∧
        dim r = dim source `min` dim target).
Proof.
  split.
  - destruct (reduce_to_shape_result source shape) as (r & Hr & Hs).
    exists r. split_and!; [done..|].
    unfold dim. by rewrite Hs, length_reduced_shape.
  - rewrite reduce_to_target_shape.
    destruct (reduce_to_shape_result source (tshape target))
      as (r & Hr & Hs).
    exists r. split_and!; [done..|].
    unfold dim. by rewrite Hs, length_reduced_shape.
Qed.

(** X14: a source that has no more axes than the target and whose sizes
    nowhere exceed the target's, aligned at the end, is returned as it
    is. *)
Theorem reduce_nothing_to_reduce (source target : tensor R)
    (shape : list nat) :
  (larger (tshape source) shape → reduce_to_shape source shape = Ok source) ∧
  (larger (tshape source) (tshape target) →
     reduce_to_target source target = Ok source).
Proof.
  split; [apply reduce_to_shape_larger|].
  rewrite reduce_to_target_shape. apply reduce_to_shape_larger.
Qed.

(** X15: reducing is idempotent when the target has no axis of size 0:
    reducing the result once more to the same target returns it as it
    is. *)
Theorem reduce_idempotent (source r : tensor R) (shape : list nat) :
  Forall (λ n, 1 ≤ n) shape →
  reduce_to_shape source shape = Ok r →
  reduce_to_shape r shape = Ok r.
Proof.
  intros Hpos Hr.
  destruct (reduce_to_shape_result source shape) as (r' & Hr' & Hs).
  rewrite Hr in Hr'. injection Hr' as <-.
  apply reduce_to_shape_larger. rewrite Hs. by apply reduced_shape_larger.
Qed.

End laws.

Lemma reduce_nothing_to_reduce_witness :
  reduce_to_shape (Tensor [1; 3] [1; 2; 3]%Z) [2; 4; 3] =
    Ok (Tensor [1; 3] [1; 2; 3]%Z).
Proof.
  apply (reduce_nothing_to_reduce (Tensor [1; 3] [1; 2; 3]%Z)
           (Tensor [] [0%Z]) [2; 4; 3]).
  split; [simpl; lia|]. simpl. repeat constructor.
Defined.

Lemma reduce_idempotent_witness :
  reduce_to_shape (Tensor [2; 1] [4; 6]%Z) [2; 1] =
    Ok (Tensor [2; 1] [4; 6]%Z).
Proof.
  apply (reduce_idempotent (Tensor [2; 2] [1; 3; 2; 4]%Z)
           (Tensor [2; 1] [4; 6]%Z) [2; 1]).
  - repeat constructor.
  - reflexivity.
Defined.

End ReductionLaws.

(** ** Further properties of MultiViewTensor *)

Module MultiViewTensorLaws.
Import Torch TorchFacts SumFacts ReduceFacts RoundTrip ReductionLaws.
Import MultiViewTensor MultiViewTensorFacts Properties.
Section laws.
Context {R : Type} `{ExactScalar R}.

Local Abbreviation mvt := (gmap (list nat) (tensor R)).

Lemma keyed_init (value : pyobj R) : keyed (init value).
Proof.
  destruct value as [|x|v|d]; try apply keyed_empty.
  intros s w. simpl. by intros [<- <-]%lookup_singleton_Some.
Qed.

Lemma sum_leftmost_all_but_result (self : mvt) (dim : Z) :
  (0 ≤ dim)%Z →
  sum_leftmost_all_but self dim =
    Ok (foldl merge_item ∅
          ((λ sv, let x := sum_leftmost_all_but_term dim sv.2 in (tshape x, x))
             <$> map_to_list self)).
Proof.
  intros Hdim. unfold sum_leftmost_all_but.
  destruct (decide _) as [_|]; [|done].
  apply sum_leftmost_all_but_loop_keyed, keyed_empty.
Qed.

(** The scalar-like tensors add up in one entry. *)
Lemma foldl_merge_scalars (a : R) (ts : list (list nat * tensor R)) :
  foldl merge_item {[ [] := Tensor [] [a] ]}
    ((λ sv, let x := sum_all sv.2 in (tshape x, x)) <$> ts) =
  {[ [] := Tensor [] [foldl (λ acc x, radd acc (total (tdata x))) a ts.*2] ]}.
Proof.
  revert a. induction ts as [|[s t] ts IH]; intros a; [done|].
  cbn [fmap list_fmap foldl snd]. rewrite <- IH. f_equal.
Qed.

Lemma filter_key_absent (l : list (list nat * tensor R)) (s : list nat) :
  s ∉ l.*1 → filter (λ sv, sv.1 = s) l = [].
Proof.
  induction l as [|[k v] l IH]; [done|]. cbn [fmap list_fmap fst].
  intros [Hne Hnin]%not_elem_of_cons. rewrite filter_cons. cbn [fst].
  case_decide; [done|]. by apply IH.
Qed.

Lemma filter_key_nodup (l : list (list nat * tensor R)) (s : list nat) :
  NoDup l.*1 →
  filter (λ sv, sv.1 = s) l =
    match (list_to_map l : mvt) !! s with
    | Some v => [(s, v)]
    | None => []
    end.
Proof.
  induction l as [|[k v] l IH]; [done|]. cbn [fmap list_fmap fst].
  intros [Hk Hl]%NoDup_cons. rewrite filter_cons, list_to_map_cons.
  cbn [fst]. case_decide as Hs.
  - subst k. rewrite lookup_insert_eq. by rewrite filter_key_absent.
  - rewrite lookup_insert_ne by done. by apply IH.
Qed.

Lemma foldl_merge_map_to_list (m : mvt) :
  foldl merge_item ∅ (map_to_list m) = m.
Proof.
  apply map_eq. intros s.
  rewrite lookup_foldl_merge, lookup_empty, filter_key_nodup
    by apply NoDup_fst_map_to_list.
  rewrite list_to_map_to_list. by destruct (m !! s).
Qed.

Lemma sum_of_var (f : tensor R → outcome (tensor R)) (xs : list (tensor R))
    (a : tensor R) (r : pyobj R) :
  sum_of f xs (PyVar a) = Ok r → ∃ v, r = PyVar v.
Proof.
  revert a. induction xs as [|x xs IH]; intros a; simpl.
  - intros [= <-]. eauto.
  - destruct (f x) as [y|e]; [|done]. cbn [mbind outcome_bind py_add].
    destruct (Torch.add a y) as [z|e]; [|done]. simpl. apply IH.
Qed.

Lemma sum_of_nonempty (f : tensor R → outcome (tensor R))
    (xs : list (tensor R)) (x : R) :
  xs ≠ [] → sum_of f xs (PyNum rzero) ≠ Ok (PyNum x).
Proof.
  destruct xs as [|t ts]; [done|]. intros _. simpl.
  destruct (f t) as [y|e]; [|done]. cbn [mbind outcome_bind py_add].
  by intros [v [=]]%sum_of_var.
Qed.

Lemma values_nonempty (self : mvt) :
  base.size self ≠ 0 → (map_to_list self).*2 ≠ [].
Proof.
  intros Hs Hnil. apply fmap_nil_inv in Hnil.
  apply map_to_list_empty_iff in Hnil. subst self.
  by rewrite map_size_empty in Hs.
Qed.

Lemma scalar_add_0 (t : tensor R) : scalar_add rzero t = t.
Proof.
  destruct t as [s d]. unfold scalar_add. simpl. f_equal.
  induction d as [|x d IH]; [done|]. rewrite fmap_cons, radd_0_l.
  by f_equal.
Qed.

(** A stored shape that is a broadcast of the target shape is reduced to
    the target shape. *)
Lemma zip_with_clip_compat (shape rest : list nat) :
  Forall2 compat shape rest → zip_with clip rest shape = shape.
Proof.
  induction 1 as [|s n shape rest Hsn _ IH]; [done|]. simpl. rewrite IH.
  f_equal. unfold clip. destruct (decide _); destruct Hsn as [->|[-> ?]]; lia.
Qed.

Lemma reduced_shape_compat (source shape : list nat) :
  length shape ≤ length source →
  Forall2 compat shape (drop (length source - length shape) source) →
  reduced_shape source shape = shape.
Proof.
  intros Hlen Hc. unfold reduced_shape. cbv zeta.
  rewrite length_drop.
  replace (length shape - (length source - (length source - length shape)))
    with 0 by lia.
  rewrite drop_0. by apply zip_with_clip_compat.
Qed.

Lemma sum_of_same_shape (f : tensor R → outcome (tensor R))
    (xs : list (tensor R)) (shape : list nat) (a : tensor R) :
  (∀ x, x ∈ xs → ∃ y, f x = Ok y ∧ tshape y = shape) →
  tshape a = shape →
  ∃ v, sum_of f xs (PyVar a) = Ok (PyVar v) ∧ tshape v = shape.
Proof.
  revert a. induction xs as [|x xs IH]; intros a Hxs Ha; simpl; [eauto|].
  destruct (Hxs x) as (y & -> & Hy); [by left|].
  cbn [mbind outcome_bind py_add].
  rewrite add_same_shape by congruence. simpl.
  apply IH; [|by rewrite ew_add_shape].
  intros ??. apply Hxs. by right.
Qed.

Lemma sum_of_shape (f : tensor R → outcome (tensor R))
    (xs : list (tensor R)) (shape : list nat) :
  xs ≠ [] → (∀ x, x ∈ xs → ∃ y, f x = Ok y ∧ tshape y = shape) →
  ∃ v, sum_of f xs (PyNum rzero) = Ok (PyVar v) ∧ tshape v = shape.
Proof.
  destruct xs as [|x xs]; [done|]. intros _ Hxs. simpl.
  destruct (Hxs x) as (y & -> & Hy); [by left|].
  cbn [mbind outcome_bind py_add].
  apply sum_of_same_shape; [|done]. intros ??. apply Hxs. by right.
Qed.


(** X16: the invariant of the class.  Every tensor is stored under its
    own shape: in a new MultiViewTensor whatever it is constructed from,
    after [add] of a Variable or of a dictionary with this property
    (which then never raises), and in whatever [sum_leftmost_all_but]
    returns, which raises for a negative [dim]. *)
Theorem stored_under_own_shape (value term : pyobj R) (self : mvt) (dim : Z) :
  keyed (init value) ∧
  (keyed self → term_ok term →
     (MultiViewTensor.add term self).1 = Ok () ∧
     keyed (MultiViewTensor.add term self).2) ∧
  (∀ r, sum_leftmost_all_but self dim = Ok r → keyed r) ∧
  ((dim < 0)%Z → sum_leftmost_all_but self dim = Raise AssertionError).
Proof.
  split_and!.
  - apply keyed_init.
  - intros Hself Hterm. rewrite add_keyed by done. split; [done|].
    by apply keyed_foldl_merge, items_of_keyed.
  - intros r. unfold sum_leftmost_all_but. destruct (decide _); [|done].
    rewrite sum_leftmost_all_but_loop_keyed by apply keyed_empty.
    intros [= <-]. apply keyed_foldl_merge; [apply keyed_empty|].
    apply Forall_forall. by intros sv (sv' & -> & _)%list_elem_of_fmap.
  - intros Hdim. unfold sum_leftmost_all_but.
    destruct (decide _); [lia|done].
Qed.

(** X17: the accumulator.  After a sequence of [add] calls the entry of
    a shape is the elementwise sum, in the order of the calls, of the
    former entry and of every tensor of that shape that the calls
    presented; a shape that no call presented keeps its entry. *)
Theorem add_all_entries (terms : list (pyobj R)) (self : mvt)
    (shape : list nat) :
  keyed self → Forall term_ok terms →
  (add_all terms self).1 = Ok () ∧
  (add_all terms self).2 !! shape =
    sum_items (self !! shape)
      (filter (λ sv, sv.1 = shape) (terms ≫= items_of)).*2 ∧
  (shape ∉ (terms ≫= items_of).*1 →
     (add_all terms self).2 !! shape = self !! shape).
Proof.
  intros Hself Hterms. rewrite add_all_keyed by done. cbn [fst snd].
  split_and!; [done|apply lookup_foldl_merge|].
  intros Hs. by rewrite lookup_foldl_merge, filter_key_absent.
Qed.

(** X18: for [dim = 0] the group reduction collapses everything: the
    result of an empty MultiViewTensor is empty, and otherwise it has
    one entry, under the empty shape, whose single element is the sum of
    the totals of the stored tensors in the order of iteration. *)
Theorem sum_leftmost_all_but_zero (self : mvt) :
  sum_leftmost_all_but self 0 =
    Ok match (map_to_list self).*2 with
       | [] => ∅
       | t :: ts =>
           {[ [] := Tensor [] [foldl (λ acc x, radd acc (total (tdata x)))
                                 (total (tdata t)) ts] ]}
       end.
Proof.
  rewrite sum_leftmost_all_but_result by done. f_equal.
  destruct (map_to_list self) as [|[s t] ts]; [done|].
  cbn [fmap list_fmap foldl snd].
  rewrite <- foldl_merge_scalars. f_equal.
Qed.

(** X19: a group reduction that keeps more axes than any stored tensor
    has reduces nothing: the result is a MultiViewTensor equal to the
    receiver. *)
Theorem sum_leftmost_all_but_id (self : mvt) (dim : Z) :
  (0 ≤ dim)%Z → keyed self →
  (∀ s v, self !! s = Some v → (Z.of_nat (Torch.dim v) < dim)%Z) →
  sum_leftmost_all_but self dim = Ok self.
Proof.
  intros Hdim Hkeyed Hall. rewrite sum_leftmost_all_but_result by lia.
  f_equal. rewrite <- (foldl_merge_map_to_list self) at 2. f_equal.
  rewrite <- (list_fmap_id (map_to_list self)) at 2.
  apply list_fmap_ext. intros i [s v] Hsv. simpl.
  apply list_elem_of_lookup_2, elem_of_map_to_list in Hsv.
  pose proof (Hall s v Hsv) as Hrank.
  assert (sum_leftmost_all_but_term dim v = v) as ->.
  { unfold sum_leftmost_all_but_term.
    destruct (decide _) as [|_]; [lia|]. by destruct (decide _). }
  by rewrite (Hkeyed s v).
Qed.

(** X20: [contract] and [contract_as] return the number 0 only for an
    empty MultiViewTensor: for one with an entry they return a tensor or
    raise. *)
Theorem contract_number_iff_empty (self : mvt) (shape : list nat)
    (target : tensor R) (x : R) :
  (contract self shape = Ok (PyNum x) ↔ self = ∅ ∧ x = rzero) ∧
  (contract_as self target = Ok (PyNum x) ↔ self = ∅ ∧ x = rzero).
Proof.
  unfold contract, contract_as. split; split.
  - destruct (decide _) as [Hs|Hs].
    + apply map_size_empty_iff in Hs. by intros [= <-].
    + intros Hc. by apply sum_of_nonempty in Hc; [|apply values_nonempty].
  - intros [-> ->]. by rewrite map_size_empty.
  - destruct (decide _) as [Hs|Hs].
    + apply map_size_empty_iff in Hs. by intros [= <-].
    + intros Hc. by apply sum_of_nonempty in Hc; [|apply values_nonempty].
  - intros [-> ->]. by rewrite map_size_empty.
Qed.

(** X21: [contract] is the opposite of [expand].  A MultiViewTensor
    that holds the broadcast of a tensor [t], contracted to the shape of
    [t] (written with any number of axes of size 1 in front), is [t]
    with every element taken as many times as the broadcast repeats
    it. *)
Theorem contract_expand (t x : tensor R) (target : list nat) (pad : nat) :
  wf t → larger (replicate pad 1 ++ tshape t) target →
  expand t target = Ok x →
  contract (init (PyVar x)) (replicate pad 1 ++ tshape t) =
    Ok (PyVar (Tensor (replicate pad 1 ++ tshape t)
                 (nsmul (numel target / numel (tshape t)) <$> tdata t))).
Proof.
  intros Hwf Hl Hx. unfold contract, init.
  rewrite map_size_singleton. destruct (decide _) as [|_]; [done|].
  rewrite map_to_list_singleton. cbn [fmap list_fmap snd sum_of].
  rewrite (reduce_to_shape_expand t x target pad) by done.
  cbn [mbind outcome_bind py_add]. by rewrite scalar_add_0.
Qed.

(** X23: the shape of a contraction.  When every stored shape is a
    broadcast of the target shape (at least as many axes, and each axis
    of the target, aligned at the end, equal to the stored one or of
    size 1 against a stored one that is not empty), [contract] of a
    MultiViewTensor that is not empty does not raise and returns a
    tensor of the target shape, and so does [contract_as]. *)
Theorem contract_shape (self : mvt) (shape : list nat) (target : tensor R) :
  self ≠ ∅ →
  (∀ s v, self !! s = Some v →
     length shape ≤ length (tshape v) ∧
     Forall2 compat shape
       (drop (length (tshape v) - length shape) (tshape v))) →
  (∃ r, contract self shape = Ok (PyVar r) ∧ tshape r = shape) ∧
  (tshape target = shape →
     ∃ r, contract_as self target = Ok (PyVar r) ∧ tshape r = shape).
Proof.
  intros Hne Hall.
  assert (base.size self ≠ 0) as Hsize
    by (by intros ?%map_size_empty_iff).
  assert (∀ x, x ∈ (map_to_list self).*2 →
            ∃ y, reduce_to_shape x shape = Ok y ∧ tshape y = shape) as Hxs.
  { intros x ([s v] & -> & Hsv%elem_of_map_to_list)%list_elem_of_fmap.
    destruct (Hall s v Hsv) as [Hlen Hc].
    destruct (reduce_to_shape_result v shape) as (y & Hy & Hsy).
    exists y. split; [done|]. by rewrite Hsy, reduced_shape_compat. }
  split.
  - unfold contract. destruct (decide _) as [|_]; [done|].
    by apply sum_of_shape; [apply values_nonempty|].
  - intros Ht. unfold contract_as. destruct (decide _) as [|_]; [done|].
    apply sum_of_shape; [by apply values_nonempty|].
    intros x Hx. rewrite reduce_to_target_shape, Ht. by apply Hxs.
Qed.

End laws.

Lemma stored_under_own_shape_witness :
  keyed (MultiViewTensor.add (PyVar (Tensor [2] [1; 2]%Z))
           (init (PyVar (Tensor [2] [10; 20]%Z)))).2 ∧
  sum_leftmost_all_but (init (PyVar (Tensor [2] [10; 20]%Z))) (-1) =
    Raise AssertionError.
Proof.
  destruct (stored_under_own_shape (PyVar (Tensor [2] [10; 20]%Z))
              (PyVar (Tensor [2] [1; 2]%Z))
              (init (PyVar (Tensor [2] [10; 20]%Z))) (-1))
    as (Hinit & Hadd & _ & Hneg).
  split.
  - apply Hadd; [exact Hinit|exact I].
  - apply Hneg. lia.
Defined.

Lemma add_all_entries_witness :
  (add_all [PyVar (Tensor [2] [1; 2]%Z); PyDict example_dict] ∅).2 !! [2] =
    Some (Tensor [2] [11; 22]%Z).
Proof.
  assert (keyed example_dict) as Hd
    by (repeat apply keyed_insert; done || apply keyed_empty).
  destruct (add_all_entries
              [PyVar (Tensor [2] [1; 2]%Z); PyDict example_dict] ∅ [2]
              keyed_empty) as (_ & Hs & _).
  - repeat constructor. exact Hd.
  - rewrite Hs. vm_compute. reflexivity.
Defined.

Lemma sum_leftmost_all_but_id_witness :
  sum_leftmost_all_but example_dict 2 = Ok example_dict.
Proof.
  apply sum_leftmost_all_but_id.
  - lia.
  - repeat apply keyed_insert; done || apply keyed_empty.
  - intros s v Hsv. unfold example_dict in Hsv.
    apply lookup_insert_Some in Hsv as [[<- <-]|[_ Hsv]];
      [unfold Torch.dim; simpl; lia|].
    apply lookup_insert_Some in Hsv as [[<- <-]|[_ Hsv]];
      [unfold Torch.dim; simpl; lia|].
    by rewrite lookup_empty in Hsv.
Defined.

Lemma contract_expand_witness :
  ∃ x, expand (Tensor [] [3%Z]) [4; 5] = Ok x ∧
       contract (init (PyVar x)) [1; 1] = Ok (PyVar (Tensor [1; 1] [60%Z])).
Proof.
  eexists. split; [reflexivity|].
  refine (contract_expand (Tensor [] [3%Z]) _ [4; 5] 2 _ _ eq_refl).
  - reflexivity.
  - split; [simpl; lia|]. simpl. repeat constructor.
Defined.

Lemma contract_shape_witness :
  ∃ r, contract (init (PyVar (Tensor [2; 2] [1; 3; 2; 4]%Z))) [2; 1] =
         Ok (PyVar r) ∧ tshape r = [2; 1].
Proof.
  refine (proj1 (contract_shape
                   (init (PyVar (Tensor [2; 2] [1; 3; 2; 4]%Z))) [2; 1]
                   (Tensor [] [0%Z]) _ _)).
  - intros Hempty. apply (f_equal (λ m, m !! [2; 2])) in Hempty.
    discriminate Hempty.
  - intros s v Hsv. unfold init in Hsv.
    apply lookup_singleton_Some in Hsv as [<- <-]. split; [simpl; lia|].
    simpl. constructor; [by left|]. constructor; [|constructor].
    right. split; [reflexivity|lia].
Defined.

End MultiViewTensorLaws.

(** ** The reductions conserve the total *)

Module Conservation.
Import Torch TorchFacts SumFacts ReduceFacts RoundTrip ReductionLaws.
Section laws.
Context {R : Type} `{ExactScalar R}.

(** *** Sums over lists *)

Lemma total_cons (x : R) (l : list R) : total (x :: l) = radd x (total l).
Proof. done. Qed.

Lemma total_app (l1 l2 : list R) :
  total (l1 ++ l2) = radd (total l1) (total l2).
Proof.
  unfold total. induction l1 as [|x l1 IH]; simpl; [by rewrite radd_0_l|].
  by rewrite IH, radd_assoc.
Qed.

Lemma total_bind {A B} (f : B → R) (g : A → list B) (l : list A) :
  total (f <$> (l ≫= g)) = total ((λ x, total (f <$> g x)) <$> l).
Proof.
  induction l as [|x l IH]; [done|].
  rewrite bind_cons, fmap_app, total_app, fmap_cons, IH. done.
Qed.

Lemma total_ext {A} (f g : A → R) (l : list A) :
  (∀ x, x ∈ l → f x = g x) → total (f <$> l) = total (g <$> l).
Proof.
  intros Hfg. f_equal. apply list_fmap_ext. intros i x Hx.
  apply Hfg. by eapply list_elem_of_lookup_2.
Qed.

Lemma total_zero {A} (l : list A) : total ((λ _, rzero) <$> l) = @rzero R _.
Proof.
  induction l as [|x l IH]; [done|].
  by rewrite fmap_cons, total_cons, IH, radd_0_l.
Qed.

Lemma total_add {A} (f g : A → R) (l : list A) :
  total ((λ x, radd (f x) (g x)) <$> l) =
    radd (total (f <$> l)) (total (g <$> l)).
Proof.
  induction l as [|x l IH]; [exact (eq_sym (radd_0_l rzero))|].
  rewrite !fmap_cons, !total_cons, IH.
  rewrite <- !radd_assoc. f_equal.
  rewrite !radd_assoc. f_equal. apply radd_comm.
Qed.

Lemma total_exchange {A B} (f : A → B → R) (l1 : list A) (l2 : list B) :
  total ((λ x, total (f x <$> l2)) <$> l1) =
    total ((λ y, total ((λ x, f x y) <$> l1)) <$> l2).
Proof.
  induction l1 as [|x l1 IH].
  - simpl. by rewrite total_zero.
  - rewrite fmap_cons, total_cons, IH.
    etrans; [|symmetry; apply total_add]. done.
Qed.

Lemma big_sum_total (n : nat) (f : nat → R) :
  big_sum n f = total (f <$> seq 0 n).
Proof.
  unfold big_sum, total. induction (seq 0 n) as [|i l IH]; [done|].
  simpl. by rewrite IH.
Qed.

Lemma big_sum_one (f : nat → R) : big_sum 1 f = f 0.
Proof. unfold big_sum. simpl. apply radd_0_r. Qed.

(** *** Sums over the index tuples of a shape *)

Lemma total_indices_cons (n : nat) (shape : list nat) (g : list nat → R) :
  total (g <$> indices (n :: shape)) =
    big_sum n (λ i, total ((λ idx, g (i :: idx)) <$> indices shape)).
Proof.
  rewrite indices_cons, total_bind, big_sum_total.
  apply total_ext. intros i _. by rewrite <- list_fmap_compose.
Qed.

(** Summing the elements after summing one axis away. *)
Lemma total_sum_first (n : nat) (shape : list nat) (g : list nat → R) :
  total ((λ idx, big_sum n (λ i, g (i :: idx))) <$> indices shape) =
    total (g <$> indices (n :: shape)).
Proof.
  rewrite total_indices_cons, big_sum_total.
  etrans; [|apply (total_exchange (λ idx i, g (i :: idx)))].
  apply total_ext. intros idx _. apply big_sum_total.
Qed.

(** Summing the elements after summing over one axis that is kept with
    size 1. *)
Lemma total_sum_keep (pre suf : list nat) (n : nat) (g : list nat → R) :
  total ((λ idx, big_sum n (λ i, g (<[length pre := i]> idx)))
           <$> indices (pre ++ 1 :: suf)) =
    total (g <$> indices (pre ++ n :: suf)).
Proof.
  revert g. induction pre as [|m pre IH]; intros g.
  - cbn [app length]. rewrite total_indices_cons, big_sum_one.
    apply (total_sum_first n suf g).
  - cbn [app length]. rewrite !total_indices_cons.
    apply big_sum_ext. intros j _.
    apply (IH (λ idx, g (j :: idx))).
Qed.

Lemma total_tdata (t : tensor R) :
  wf t → total (item t <$> indices (tshape t)) = total (tdata t).
Proof.
  intros Hwf. by rewrite <- (tabulate_item t Hwf) at 3.
Qed.

(** *** The two calls of [sum] *)

Lemma axis_lt (rank : nat) (a : Z) (j : nat) : axis rank a = Ok j → j < rank.
Proof.
  unfold axis. repeat destruct (decide _); intros [=]; lia.
Qed.

Lemma sum_dim_0_conserves (t t' : tensor R) :
  wf t → sum_dim t 0 false = Ok t' →
  wf t' ∧ total (tdata t') = total (tdata t).
Proof.
  intros Hwf Hs. unfold sum_dim in Hs.
  destruct (axis (dim t) 0) as [j|e] eqn:Hj; [|done].
  pose proof (axis_lt _ _ _ Hj) as Hlt. unfold axis in Hj.
  destruct (decide _) as [_|]; [|lia]. injection Hj as <-.
  cbn [mbind outcome_bind] in Hs. injection Hs as <-.
  split; [apply wf_tabulate|]. rewrite <- (total_tdata t Hwf).
  unfold dim in Hlt. destruct (tshape t) as [|n shape]; [simpl in Hlt; lia|].
  apply (total_sum_first n shape (item t)).
Qed.

Lemma sum_dim_keep_conserves (t t' : tensor R) (a : Z) :
  wf t → sum_dim t a true = Ok t' →
  wf t' ∧ total (tdata t') = total (tdata t).
Proof.
  intros Hwf Hs. unfold sum_dim in Hs.
  destruct (axis (dim t) a) as [j|e] eqn:Hj; [|done].
  apply axis_lt in Hj. cbn [mbind outcome_bind] in Hs. injection Hs as <-.
  split; [apply wf_tabulate|]. rewrite <- (total_tdata t Hwf).
  unfold dim in Hj.
  destruct (lookup_lt_is_Some_2 (tshape t) j Hj) as [n Hn].
  rewrite (nth_lookup_Some _ _ _ n) by done.
  pose proof (take_drop_middle (tshape t) j n Hn) as Hshape.
  assert (length (take j (tshape t)) = j) as Hl by (rewrite length_take; lia).
  revert Hshape Hl.
  generalize (take j (tshape t)) (drop (S j) (tshape t)).
  intros pre suf Hshape Hl. subst j. rewrite <- Hshape.
  replace (<[length pre := 1]> (pre ++ n :: suf)) with (pre ++ 1 :: suf)
    by (by rewrite <- (Nat.add_0_r (length pre)), insert_app_r).
  apply (total_sum_keep pre suf n (item t)).
Qed.

(** *** The two loops *)

Lemma sum_excess_conserves (source : tensor R) (rank : nat) :
  wf source →
  ∃ source', sum_excess source rank = Ok source' ∧ wf source' ∧
    total (tdata source') = total (tdata source).
Proof.
  remember (dim source - rank) as n eqn:Hn.
  revert source Hn. induction n as [|n IH]; intros source Hn Hwf.
  - exists source. split; [apply sum_excess_done; lia|done].
  - destruct (sum_dim_0_shape source) as (t' & Ht' & Hs'); [lia|].
    destruct (sum_dim_0_conserves source t' Hwf Ht') as [Hwf' Htot].
    destruct (IH t') as (r & Hr & Hwfr & Htotr); [|done|].
    { unfold dim in *. rewrite Hs', length_drop. lia. }
    exists r. split_and!; [|done|congruence].
    by rewrite (sum_excess_step source t') by (done || lia).
Qed.

Lemma reduce_body_conserves (shape : list nat) (x x' : tensor R) (k : nat) :
  wf x → reduce_body shape x k = Ok x' →
  wf x' ∧ total (tdata x') = total (tdata x).
Proof.
  intros Hwf. unfold reduce_body.
  destruct (size x (- Z.of_nat k)) as [a|e]; [|done].
  destruct (tuple_get shape (- Z.of_nat k)) as [b|e]; [|done].
  cbn [mbind outcome_bind]. destruct (decide _).
  - by apply sum_dim_keep_conserves.
  - by intros [= <-].
Qed.

Lemma reduce_loop_conserves (shape : list nat) (ks : list nat)
    (x r : tensor R) :
  wf x → for_each ks (reduce_body shape) x = Ok r →
  wf r ∧ total (tdata r) = total (tdata x).
Proof.
  revert x. induction ks as [|k ks IH]; intros x Hwf; simpl.
  - by intros [= <-].
  - destruct (reduce_body shape x k) as [x'|e] eqn:Hx'; [|done].
    cbn [mbind outcome_bind]. intros Hr.
    destruct (reduce_body_conserves shape x x' k Hwf Hx') as [Hwf' Htot].
    destruct (IH x' Hwf' Hr) as [Hwfr Htotr]. split; [done|congruence].
Qed.

Lemma reduce_to_shape_conserves (source : tensor R) (shape : list nat) :
  wf source →
  ∃ r, reduce_to_shape source shape = Ok r ∧ wf r ∧
       total (tdata r) = total (tdata source).
Proof.
  intros Hwf.
  destruct (reduce_to_shape_result source shape) as (r & Hr & _).
  exists r. split; [done|]. rewrite reduce_to_shape_body in Hr.
  destruct (sum_excess_conserves source (length shape) Hwf)
    as (x & Hx & Hwfx & Htotx).
  rewrite Hx in Hr. cbn [mbind outcome_bind] in Hr.
  destruct (reduce_loop_conserves shape _ x r Hwfx Hr) as [Hwfr Htotr].
  split; [done|congruence].
Qed.

(** X22: the reduction helpers conserve the total.  In exact
    arithmetic, the sum of all elements of the reduced tensor, as
    [torch_sum] and [torch_data_sum] return it, is that of the source,
    whatever the target. *)
Theorem reduce_conserves_total (source target : tensor R)
    (shape : list nat) :
  wf source →
  (∃ r, reduce_to_shape source shape = Ok r ∧ wf r ∧
        torch_sum (PyVar r) = torch_sum (PyVar source) ∧
        torch_data_sum (PyVar r) = torch_data_sum (PyVar source)) ∧
  (∃ r, reduce_to_target source target = Ok r ∧ wf r ∧
        torch_sum (PyVar r) = torch_sum (PyVar source) ∧
        torch_data_sum (PyVar r) = torch_data_sum (PyVar source)).
Proof.
  intros Hwf. split.
  - destruct (reduce_to_shape_conserves source shape Hwf)
      as (r & Hr & Hwfr & Htot).
    exists r. split_and!; [done..| |]; simpl; unfold sum_all;
      by rewrite Htot.
  - rewrite reduce_to_target_shape.
    destruct (reduce_to_shape_conserves source (tshape target) Hwf)
      as (r & Hr & Hwfr & Htot).
    exists r. split_and!; [done..| |]; simpl; unfold sum_all;
      by rewrite Htot.
Qed.

End laws.

Lemma reduce_conserves_total_witness :
  ∃ r, reduce_to_shape (Tensor [2; 2] [1; 3; 2; 4]%Z) [1] = Ok r ∧
       torch_sum (PyVar r) = Ok (PyVar (Tensor [] [10%Z])).
Proof.
  destruct (reduce_conserves_total (Tensor [2; 2] [1; 3; 2; 4]%Z)
              (Tensor [] [0%Z]) [1] eq_refl) as [(r & Hr & _ & Hs & _) _].
  exists r. split; [exact Hr|exact Hs].
Defined.

End Conservation.
